(** * A shallow embedding of the RNN of [code/rnn.py] and of the training
      driver of [code/runner.py]

    The Python methods are translated one by one.  A Python exception
    (IndexError, ValueError on a shape mismatch) is the value [None] of the
    option monad; [self] is passed explicitly and returned when a method
    mutates it.  Numbers are kept abstract behind small operation classes so
    that the structural results hold for every interpretation of [+], [-],
    [*] (IEEE doubles included); the integers, the rationals and the reals
    are the instances used for running examples and for the analytic
    results. *)

From Stdlib Require Import ZArith QArith Reals Lra Lia.
From stdpp Require Import base option list.

Local Open Scope Z_scope.

(** ** Number interfaces *)

(** The arithmetic that back-propagation needs. *)
Class Arith (F : Type) := {
  f0 : F;
  f1 : F;
  fadd : F -> F -> F;
  fsub : F -> F -> F;
  fmul : F -> F -> F
}.

(** True division ([/] on Python floats). *)
Class Division (F : Type) := { fdiv : F -> F -> F }.

(** [np.exp] and [np.log]. *)
Class Analytic (F : Type) := { fexp : F -> F; flog : F -> F }.

(** [abs], [<] and the conversion of a Python int. *)
Class Ordered (F : Type) := {
  fabs : F -> F;
  fltb : F -> F -> bool;
  of_int : Z -> F
}.

#[export] Instance Z_arith : Arith Z :=
  {| f0 := 0; f1 := 1; fadd := Z.add; fsub := Z.sub; fmul := Z.mul |}.

(** ** Python sequences *)

(** [range(n)]: empty when [n <= 0]. *)
Definition py_range (n : Z) : list Z := seqZ 0 n.

(** [len(l)]. *)
Definition py_len {A} (l : list A) : Z := Z.of_nat (length l).

(** [l[i]] for a list or the first axis of an array: a negative index counts
    from the end, anything outside [-len, len) raises IndexError. *)
Definition py_index {A} (l : list A) (i : Z) : option A :=
  if 0 <=? i then l !! Z.to_nat i
  else if - py_len l <=? i then l !! Z.to_nat (py_len l + i)
  else None.

(** [l[i] = v] on the first axis of an array, same index rule. *)
Definition py_store {A} (l : list A) (i : Z) (v : A) : option (list A) :=
  if 0 <=? i then
    if i <? py_len l then Some (<[Z.to_nat i := v]> l) else None
  else if - py_len l <=? i then Some (<[Z.to_nat (py_len l + i) := v]> l)
  else None.

(** A [for] loop whose body may raise. *)
Fixpoint foldM {A B} (f : A -> B -> option A) (a : A) (l : list B) : option A :=
  match l with
  | [] => Some a
  | b :: l' => a' ← f a b; foldM f a' l'
  end.

(** ** The numpy operations used by the model *)

(** A 1-D array is a list, a 2-D array a list of rows.  An elementwise
    operation or a product on arrays whose shapes do not fit is the error
    [None]; numpy raises ValueError there, except that its elementwise
    operations stretch an axis of length 1, which the shapes fixed by
    [__init__] and returned by [predict] never call for. *)

Section Numpy.
Context {F : Type} `{Arith F}.

(** Elementwise binary operation on two 1-D arrays of one shape. *)
Definition vzip (f : F -> F -> F) (a b : list F) : option (list F) :=
  if decide (length a = length b) then Some (zip_with f a b) else None.

Definition vadd := vzip fadd.
Definition vsub := vzip fsub.
Definition vmul := vzip fmul.

Definition vsum (a : list F) : F := foldr fadd f0 a.

(** [np.dot] of two 1-D arrays. *)
Definition np_dot (a b : list F) : option F := vsum <$> vmul a b.

(** [np.outer]. *)
Definition np_outer (a b : list F) : list (list F) :=
  map (fun ai => map (fmul ai) b) a.

(** [np.transpose] of a 2-D array with [cols] columns. *)
Definition np_transpose (cols : nat) (M : list (list F)) : list (list F) :=
  map (fun j => map (fun row => nth j row f0) M) (seq 0 cols).

(** [M @ v] and [np.dot(M, v)] for a 2-D [M] and a 1-D [v]. *)
Definition np_matvec (M : list (list F)) (v : list F) : option (list F) :=
  mapM (fun row => np_dot row v) M.

(** [A += B] on 2-D arrays of one shape. *)
Definition madd (A B : list (list F)) : option (list (list F)) :=
  if decide (length A = length B)
  then mapM (fun ab => vadd ab.1 ab.2) (zip A B)
  else None.

(** [np.zeros(n)] and [np.zeros((r, c))]. *)
Definition np_zeros (n : nat) : list F := replicate n f0.
Definition np_zeros2 (r c : nat) : list (list F) := replicate r (np_zeros c).

(** Modelled from the spec: [make_onehot] of the module [rnnmath], which
    is not part of the sources at hand.  Spec 4.1: a vector of length
    [size], 1.0 at [index], 0 elsewhere; fails if the index is out of
    [0, size). *)
Definition make_onehot (index : Z) (size : nat) : option (list F) :=
  if bool_decide (0 <= index < Z.of_nat size)
  then Some (<[Z.to_nat index := f1]> (np_zeros size))
  else None.

(** Modelled from the spec: [grad] of the module [rnnmath] (spec 4.1,
    the sigmoid gradient from the sigmoid's output): elementwise
    [s * (1 - s)]. *)
Definition grad (s : list F) : list F := map (fun a => fmul a (fsub f1 a)) s.
End Numpy.

(** ** The model *)

(** The fields of [RNN] set by [__init__]. *)
Record RNN (F : Type) := mkRNN {
  vocab_size : nat;
  hidden_dims : nat;
  out_vocab_size : nat;
  U : list (list F);
  V : list (list F);
  W : list (list F);
  deltaU : list (list F);
  deltaV : list (list F);
  deltaW : list (list F)
}.
Arguments mkRNN {F}.
Arguments vocab_size {F}.
Arguments hidden_dims {F}.
Arguments out_vocab_size {F}.
Arguments U {F}.
Arguments V {F}.
Arguments W {F}.
Arguments deltaU {F}.
Arguments deltaV {F}.
Arguments deltaW {F}.

Section Setters.
Context {F : Type}.

Definition set_deltaU (m : RNN F) (a : list (list F)) : RNN F :=
  mkRNN (vocab_size m) (hidden_dims m) (out_vocab_size m)
        (U m) (V m) (W m) a (deltaV m) (deltaW m).
Definition set_deltaV (m : RNN F) (a : list (list F)) : RNN F :=
  mkRNN (vocab_size m) (hidden_dims m) (out_vocab_size m)
        (U m) (V m) (W m) (deltaU m) a (deltaW m).
Definition set_deltaW (m : RNN F) (a : list (list F)) : RNN F :=
  mkRNN (vocab_size m) (hidden_dims m) (out_vocab_size m)
        (U m) (V m) (W m) (deltaU m) (deltaV m) a.
End Setters.

Section Backprop.
Context {F : Type} `{Arith F}.

(** [RNN.acc_deltas]: the body of the loop over [t]. *)
Definition acc_deltas_step (x d : list Z) (y s : list (list F))
    (m : RNN F) (t : Z) : option (RNN F) :=
  dt ← py_index d t;
  one_hot_dt ← make_onehot dt (out_vocab_size m);
  yt ← py_index y t;
  delta_out ← vsub one_hot_dt yt;
  st ← py_index s t;
  dW ← madd (deltaW m) (np_outer delta_out st);
  let m := set_deltaW m dW in
  back ← np_matvec (np_transpose (hidden_dims m) (W m)) delta_out;
  delta_in ← vmul back (grad st);
  xt ← py_index x t;
  one_hot_xt ← make_onehot xt (vocab_size m);
  dV ← madd (deltaV m) (np_outer delta_in one_hot_xt);
  let m := set_deltaV m dV in
  sp ← py_index s (t - 1);
  dU ← madd (deltaU m) (np_outer delta_in sp);
  Some (set_deltaU m dU).

(** [RNN.acc_deltas]. *)
Definition acc_deltas (m : RNN F) (x d : list Z) (y s : list (list F))
    : option (RNN F) :=
  foldM (acc_deltas_step x d y s) m (reverse (py_range (py_len x))).

(** [RNN.acc_deltas_np]. *)
Definition acc_deltas_np (m : RNN F) (x d : list Z) (y s : list (list F))
    : option (RNN F) :=
  let t := py_len x - 1 in
  d0 ← py_index d 0;
  one_hot_dt ← make_onehot d0 (out_vocab_size m);
  yt ← py_index y t;
  delta_out ← vsub one_hot_dt yt;
  st ← py_index s t;
  let m := set_deltaW m (np_outer delta_out st) in
  back ← np_matvec (np_transpose (hidden_dims m) (W m)) delta_out;
  delta_in ← vmul back (grad st);
  xt ← py_index x t;
  one_hot_xt ← make_onehot xt (vocab_size m);
  let m := set_deltaV m (np_outer delta_in one_hot_xt) in
  sp ← py_index s (t - 1);
  Some (set_deltaU m (np_outer delta_in sp)).

(** The body of the inner loop over [t_], shared by [acc_deltas_bptt] and
    [acc_deltas_bptt_np]; the loop carries [self] and [delta_in]. *)
Definition bptt_inner (x : list Z) (s : list (list F)) (t : Z)
    (st : RNN F * list F) (t_ : Z) : option (RNN F * list F) :=
  let '(m, delta_in) := st in
  xi ← py_index x (t - t_);
  one_hot_xt ← make_onehot xi (vocab_size m);
  back ← np_matvec (np_transpose (hidden_dims m) (U m)) delta_in;
  sti ← py_index s (t - t_);
  delta_in_T ← vmul back (grad sti);
  if bool_decide (t_ = 0) then
    dV ← madd (deltaV m) (np_outer delta_in one_hot_xt);
    let m := set_deltaV m dV in
    sp ← py_index s (t - 1);
    dU ← madd (deltaU m) (np_outer delta_in sp);
    Some (set_deltaU m dU, delta_in)
  else
    dV ← madd (deltaV m) (np_outer delta_in_T one_hot_xt);
    let m := set_deltaV m dV in
    sp ← py_index s (t - t_ - 1);
    dU ← madd (deltaU m) (np_outer delta_in_T sp);
    Some (set_deltaU m dU, delta_in_T).

(** [RNN.acc_deltas_bptt]: the body of the loop over [t]. *)
Definition acc_deltas_bptt_step (x d : list Z) (y s : list (list F))
    (steps : Z) (m : RNN F) (t : Z) : option (RNN F) :=
  dt ← py_index d t;
  one_hot_dt ← make_onehot dt (out_vocab_size m);
  yt ← py_index y t;
  delta_out ← vsub one_hot_dt yt;
  st ← py_index s t;
  dW ← madd (deltaW m) (np_outer delta_out st);
  let m := set_deltaW m dW in
  back ← np_matvec (np_transpose (hidden_dims m) (W m)) delta_out;
  delta_in ← vmul back (grad st);
  fst <$> foldM (bptt_inner x s t) (m, delta_in) (py_range (steps + 1)).

(** [RNN.acc_deltas_bptt]. *)
Definition acc_deltas_bptt (m : RNN F) (x d : list Z) (y s : list (list F))
    (steps : Z) : option (RNN F) :=
  foldM (acc_deltas_bptt_step x d y s steps) m (reverse (py_range (py_len x))).

(** [RNN.acc_deltas_bptt_np]. *)
Definition acc_deltas_bptt_np (m : RNN F) (x d : list Z) (y s : list (list F))
    (steps : Z) : option (RNN F) :=
  let t := py_len x - 1 in
  d0 ← py_index d 0;
  one_hot_dt ← make_onehot d0 (out_vocab_size m);
  yt ← py_index y t;
  delta_out ← vsub one_hot_dt yt;
  st ← py_index s t;
  let m := set_deltaW m (np_outer delta_out st) in
  back ← np_matvec (np_transpose (hidden_dims m) (W m)) delta_out;
  delta_in ← vmul back (grad st);
  fst <$> foldM (bptt_inner x s t) (m, delta_in)
                (py_range (Z.min (steps + 1) t)).
End Backprop.

(** ** The forward pass and the loss *)

Section Forward.
Context {F : Type} `{Arith F} `{Division F} `{Analytic F}.

(** Modelled from the spec: [sigmoid] of the module [rnnmath] (spec 4.1):
    elementwise [1 / (1 + exp(-v))]. *)
Definition sigmoid (v : list F) : list F :=
  map (fun a => fdiv f1 (fadd f1 (fexp (fsub f0 a)))) v.

(** Modelled from the spec: [softmax] of the module [rnnmath] (spec 4.1):
    elementwise [exp(v_i) / sum_j exp(v_j)], without a max shift. *)
Definition softmax (v : list F) : list F :=
  let e := map fexp v in map (fun a => fdiv a (vsum e)) e.

(** [a[t] = v] for a row [v] of the width of the 2-D array [a]. *)
Definition np_store_row (a : list (list F)) (t : Z) (v : list F)
    : option (list (list F)) :=
  r ← py_index a t;
  if decide (length r = length v) then py_store a t v else None.

(** [RNN.predict]: the body of the loop over [t]; the loop carries the
    arrays [y] and [s]. *)
Definition predict_step (m : RNN F) (x : list Z)
    (ys : list (list F) * list (list F)) (t : Z)
    : option (list (list F) * list (list F)) :=
  let '(y, s) := ys in
  xt ← py_index x t;
  one_hot_x ← make_onehot xt (vocab_size m);
  a ← np_matvec (V m) one_hot_x;
  sp ← py_index s (t - 1);
  b ← np_matvec (U m) sp;
  net_in ← vadd a b;
  s ← np_store_row s t (sigmoid net_in);
  st ← py_index s t;
  net_out ← np_matvec (W m) st;
  y ← np_store_row y t (softmax net_out);
  Some (y, s).

(** [RNN.predict]: returns [(y, s)]. *)
Definition predict (m : RNN F) (x : list Z)
    : option (list (list F) * list (list F)) :=
  let s := np_zeros2 (length x + 1) (hidden_dims m) in
  let y := np_zeros2 (length x) (out_vocab_size m) in
  foldM (predict_step m x) (y, s) (py_range (py_len x)).

(** [Runner.compute_loss]: the body of the loop over [t]. *)
Definition compute_loss_step (m : RNN F) (d : list Z) (y : list (list F))
    (loss : F) (t : Z) : option F :=
  dt ← py_index d t;
  y_true ← make_onehot dt (vocab_size m);
  yt ← py_index y t;
  let log_y_pred := map flog yt in
  p ← np_dot y_true log_y_pred;
  Some (fsub loss p).

(** [Runner.compute_loss], with [self.model] passed as [m]. *)
Definition compute_loss (m : RNN F) (x d : list Z) : option F :=
  ys ← predict m x;
  foldM (compute_loss_step m d ys.1) f0 (py_range (py_len x)).

(** [Runner.compute_loss_np]. *)
Definition compute_loss_np (m : RNN F) (x d : list Z) : option F :=
  ys ← predict m x;
  let t := py_len x - 1 in
  yt ← py_index ys.1 t;
  let log_y_pred := map flog yt in
  d0 ← py_index d 0;
  one_hot_dt ← make_onehot d0 (vocab_size m);
  p ← np_dot one_hot_dt log_y_pred;
  Some (fsub f0 p).

(** The instance step of [Runner.train] (lines 187 to 191): forward pass,
    then the gradient method chosen by [back_steps]. *)
Definition train_instance (m : RNN F) (x_p d_p : list Z) (back_steps : Z)
    : option (RNN F) :=
  ys ← predict m x_p;
  if bool_decide (back_steps = 0)
  then acc_deltas m x_p d_p ys.1 ys.2
  else acc_deltas_bptt m x_p d_p ys.1 ys.2 back_steps.

(** The instance step of [Runner.train_np] (lines 327 to 331). *)
Definition train_np_instance (m : RNN F) (x_p d_p : list Z) (back_steps : Z)
    : option (RNN F) :=
  ys ← predict m x_p;
  if bool_decide (back_steps = 0)
  then acc_deltas_np m x_p d_p ys.1 ys.2
  else acc_deltas_bptt_np m x_p d_p ys.1 ys.2 back_steps.
End Forward.

(** ** Instances: rationals in lowest terms, and the reals *)

#[export] Instance Q_arith : Arith Q :=
  {| f0 := 0%Q; f1 := 1%Q;
     fadd := fun a b => Qred (a + b)%Q;
     fsub := fun a b => Qred (a - b)%Q;
     fmul := fun a b => Qred (a * b)%Q |}.

#[export] Instance Q_division : Division Q :=
  {| fdiv := fun a b => Qred (a / b)%Q |}.

#[export] Instance Q_ordered : Ordered Q :=
  {| fabs := Qabs.Qabs;
     fltb := fun a b => negb (Qle_bool b a);
     of_int := inject_Z |}.

#[export] Instance R_arith : Arith R :=
  {| f0 := 0%R; f1 := 1%R; fadd := Rplus; fsub := Rminus; fmul := Rmult |}.

#[export] Instance R_division : Division R := {| fdiv := Rdiv |}.

#[export] Instance R_analytic : Analytic R := {| fexp := exp; flog := ln |}.

#[export] Instance R_ordered : Ordered R :=
  {| fabs := Rabs;
     fltb := fun a b => if Rlt_dec a b then true else false;
     of_int := IZR |}.

(** ** Shapes fixed by the constructor *)

Definition has_shape {F} (r c : nat) (M : list (list F)) : Prop :=
  length M = r ∧ Forall (fun row => length row = c) M.

(** [__init__]: [U] is hidden x hidden, [V] hidden x vocab, [W] out x hidden,
    each accumulator has the shape of its matrix, and no dimension is 0. *)
Record wf_rnn {F} (m : RNN F) : Prop := {
  wf_vocab : (0 < vocab_size m)%nat;
  wf_hidden : (0 < hidden_dims m)%nat;
  wf_out : (0 < out_vocab_size m)%nat;
  wf_U : has_shape (hidden_dims m) (hidden_dims m) (U m);
  wf_V : has_shape (hidden_dims m) (vocab_size m) (V m);
  wf_W : has_shape (out_vocab_size m) (hidden_dims m) (W m);
  wf_deltaU : has_shape (hidden_dims m) (hidden_dims m) (deltaU m);
  wf_deltaV : has_shape (hidden_dims m) (vocab_size m) (deltaV m);
  wf_deltaW : has_shape (out_vocab_size m) (hidden_dims m) (deltaW m)
}.

(** The shapes of the traces that [predict] returns for [x]. *)
Definition wf_traces {F} (m : RNN F) (x : list Z) (y s : list (list F))
    : Prop :=
  has_shape (length x) (out_vocab_size m) y ∧
  has_shape (length x + 1) (hidden_dims m) s.

(** The words of a sentence are indices into the vocabulary. *)
Definition valid_words {F} (m : RNN F) (x : list Z) : Prop :=
  Forall (fun a => 0 <= a < Z.of_nat (vocab_size m)) x.

(** The labels of a sentence: at least one per word, each an output
    class. *)
Definition valid_labels {F} (m : RNN F) (x d : list Z) : Prop :=
  (length x <= length d)%nat ∧
  Forall (fun a => 0 <= a < Z.of_nat (out_vocab_size m)) d.

(** The single label of the number-prediction task: [d[0]] is an output
    class. *)
Definition valid_label {F} (m : RNN F) (d : list Z) : Prop :=
  ∃ d0, d !! 0%nat = Some d0 ∧ 0 <= d0 < Z.of_nat (out_vocab_size m).

(** Two models with the same dimensions and weights (the accumulators may
    differ). *)
Definition same_params {F} (m m' : RNN F) : Prop :=
  vocab_size m = vocab_size m' ∧ hidden_dims m = hidden_dims m' ∧
  out_vocab_size m = out_vocab_size m' ∧
  U m = U m' ∧ V m = V m' ∧ W m = W m'.

(** ** Loops that only add contributions to accumulators *)

(** Run the part of a loop that does not touch the accumulators: collect what
    each iteration contributes, threading the value [c] the loop carries. *)
Fixpoint gather {B C K} (f : C -> B -> option (K * C)) (c : C) (l : list B)
    : option (list K * C) :=
  match l with
  | [] => Some ([], c)
  | b :: l' => kc ← f c b; r ← gather f kc.2 l'; Some (kc.1 :: r.1, r.2)
  end.

Section Contributions.
Context {F : Type} `{Arith F}.

(** What one iteration of the inner BPTT loop adds to [deltaV] and to
    [deltaU], with the [delta_in] it leaves for the next iteration. *)
Definition bptt_inner_contrib (m : RNN F) (x : list Z) (s : list (list F))
    (t : Z) (delta_in : list F) (t_ : Z)
    : option ((list (list F) * list (list F)) * list F) :=
  xi ← py_index x (t - t_);
  one_hot_xt ← make_onehot xi (vocab_size m);
  back ← np_matvec (np_transpose (hidden_dims m) (U m)) delta_in;
  sti ← py_index s (t - t_);
  delta_in_T ← vmul back (grad sti);
  if bool_decide (t_ = 0) then
    sp ← py_index s (t - 1);
    Some ((np_outer delta_in one_hot_xt, np_outer delta_in sp), delta_in)
  else
    sp ← py_index s (t - t_ - 1);
    Some ((np_outer delta_in_T one_hot_xt, np_outer delta_in_T sp),
          delta_in_T).

(** [deltaV += k.1; deltaU += k.2]. *)
Definition add_VU (m : RNN F) (k : list (list F) * list (list F))
    : option (RNN F) :=
  dV ← madd (deltaV m) k.1;
  dU ← madd (deltaU m) k.2;
  Some (set_deltaU (set_deltaV m dV) dU).

(** The contributions of one call of [acc_deltas_bptt_np]: the new
    [deltaW] and, per inner iteration, the terms for [deltaV] and
    [deltaU].  The accumulators are not read. *)
Definition bptt_np_contribs (m : RNN F) (x d : list Z) (y s : list (list F))
    (steps : Z)
    : option (list (list F) * list (list (list F) * list (list F))) :=
  let t := py_len x - 1 in
  d0 ← py_index d 0;
  one_hot_dt ← make_onehot d0 (out_vocab_size m);
  yt ← py_index y t;
  delta_out ← vsub one_hot_dt yt;
  st ← py_index s t;
  back ← np_matvec (np_transpose (hidden_dims m) (W m)) delta_out;
  delta_in ← vmul back (grad st);
  r ← gather (bptt_inner_contrib m x s t) delta_in
             (py_range (Z.min (steps + 1) t));
  Some (np_outer delta_out st, r.1).
End Contributions.

(** ** Standard back-propagation, as the specification words it *)

Section SingleStep.
Context {F : Type} `{Arith F}.

(** The terms of timestep [t] (spec 4.3): the output error
    [onehot(d[t]) - y[t]]; its outer product with [s[t]], for [deltaW]; the
    hidden error, [W] transposed applied to the output error, times the
    sigmoid gradient at [s[t]]; its outer products with [onehot(x[t])], for
    [deltaV], and with [s[t-1]], for [deltaU].  Neither [U] nor an
    accumulator nor another timestep enters. *)
Definition bp_contrib (vocab hidden out : nat) (Wm : list (list F))
    (x d : list Z) (y s : list (list F)) (t : Z)
    : option (list (list F) * list (list F) * list (list F)) :=
  dt ← py_index d t;
  one_hot_dt ← make_onehot dt out;
  yt ← py_index y t;
  delta_out ← vsub one_hot_dt yt;
  st ← py_index s t;
  back ← np_matvec (np_transpose hidden Wm) delta_out;
  delta_in ← vmul back (grad st);
  xt ← py_index x t;
  one_hot_xt ← make_onehot xt vocab;
  sp ← py_index s (t - 1);
  Some (np_outer delta_out st, np_outer delta_in one_hot_xt,
        np_outer delta_in sp).

(** [deltaW += k.1.1; deltaV += k.1.2; deltaU += k.2]. *)
Definition add_WVU (m : RNN F)
    (k : list (list F) * list (list F) * list (list F)) : option (RNN F) :=
  dW ← madd (deltaW m) k.1.1;
  dV ← madd (deltaV m) k.1.2;
  dU ← madd (deltaU m) k.2;
  Some (set_deltaU (set_deltaV (set_deltaW m dW) dV) dU).

(** [self.U = a], used to compare models that differ in [U] only. *)
Definition set_U (m : RNN F) (a : list (list F)) : RNN F :=
  mkRNN (vocab_size m) (hidden_dims m) (out_vocab_size m)
        a (V m) (W m) (deltaU m) (deltaV m) (deltaW m).
End SingleStep.

(** ** Invariant of the forward loop, and the loss as a formula *)

Section ForwardInvariant.
Context {F : Type} `{Arith F} `{Division F} `{Analytic F}.

(** What holds of the arrays [y] and [s] after the timesteps below [k]. *)
Definition predict_inv (m : RNN F) (x : list Z) (k : nat)
    (ys : list (list F) * list (list F)) : Prop :=
  has_shape (length x) (out_vocab_size m) ys.1 ∧
  has_shape (length x + 1) (hidden_dims m) ys.2 ∧
  ys.2 !! length x = Some (np_zeros (hidden_dims m)) ∧
  ∀ i row, (i < k)%nat → ys.1 !! i = Some row →
    ∃ p, row = softmax p ∧ length p = out_vocab_size m.
End ForwardInvariant.

(** ** The loss as a formula *)

Section Likelihood.
Context {F : Type} `{Arith F} `{Analytic F}.

(** [np.log(y[t])[j]], the log of the probability of class [j] at
    timestep [t] (the log of 0 outside the array). *)
Definition log_entry (y : list (list F)) (t : nat) (j : Z) : F :=
  flog (default f0 (row ← y !! t; row !! Z.to_nat j)).

(** The negative log-likelihood of the labels [d] under the first [n]
    rows of [y], summed in the order of the loop:
    [0 - log y[0][d[0]] - log y[1][d[1]] - ...]. *)
Definition nll (y : list (list F)) (d : list Z) (n : nat) : F :=
  foldl (fun loss t => fsub loss (log_entry y t (default 0 (d !! t))))
        f0 (seq 0 n).

End Likelihood.

(** ** The training driver *)

(** The local variables of [Runner.train] that an epoch reads or writes,
    with [self.model]; [best_acc] is bound only once an epoch has improved
    the loss ([train_np] alone has it); [epochs_log] records, for every
    epoch run, its number, the learning rate it used and the loss measured
    after it (what the loop prints when [log] is set). *)
Record train_state (St F : Type) := mkTrain {
  model : St;
  prev_loss : F;
  min_change_count : Z;
  best_loss : F;
  best_epoch : Z;
  best_acc : option F;
  epochs_log : list (Z * F * F)
}.
Arguments mkTrain {St F}.
Arguments model {St F}.
Arguments prev_loss {St F}.
Arguments min_change_count {St F}.
Arguments best_loss {St F}.
Arguments best_epoch {St F}.
Arguments best_acc {St F}.
Arguments epochs_log {St F}.

(** A [for] loop whose body may raise or [break]: the body returns the
    new state and whether it left the loop. *)
Fixpoint for_break {A B} (f : A -> B -> option (A * bool)) (a : A)
    (l : list B) : option A :=
  match l with
  | [] => Some a
  | b :: l' =>
      r ← f a b;
      if (r : A * bool).2 then Some r.1 else for_break f r.1 l'
  end.

Section Training.
Context {F : Type} `{Arith F} `{Division F} `{Ordered F}.
(** The state of the model object (weights, accumulators, saved
    parameters) together with the random generator. *)
Context {St : Type}.
(** The pass over the training set with a given learning rate (lines 170
    to 200, resp. 310 to 340): permutation, forward and backward pass of
    every instance, [scale_gradients_for_batch] and [apply_deltas]. *)
Variable epoch_body : St -> F -> option St.
(** The mean loss on the dev set (line 202, resp. 342). *)
Variable dev_loss : St -> option F.
(** The mean accuracy on the dev set, in [train_np] only (line 343). *)
Variable dev_acc : option (St -> option F).
(** [Model.save_params] and [Model.set_best_params], of the module [model]. *)
Variable save_params : St -> St.
Variable set_best_params : St -> St.

(** Lines 161 to 164, resp. 301 to 304. *)
Definition epoch_learning_rate (a0 anneal : F) (epoch : Z) : F :=
  if fltb f0 anneal
  then fdiv a0 (fdiv (fadd (fadd (of_int epoch) f0) anneal) anneal)
  else a0.

(** One iteration of the loop over [epoch]. *)
Definition epoch_step (a0 anneal min_change : F)
    (st : train_state St F) (epoch : Z)
    : option (train_state St F * bool) :=
  let learning_rate := epoch_learning_rate a0 anneal epoch in
  trained ← epoch_body (model st) learning_rate;
  loss ← dev_loss trained;
  acc ← match dev_acc with
        | Some f => Some <$> f trained
        | None => Some None
        end;
  let improved := fltb loss (best_loss st) in
  let best_loss' := if improved then loss else best_loss st in
  let best_acc' := if improved then acc else best_acc st in
  let model' := if improved then save_params trained else trained in
  let best_epoch' := if improved then epoch else best_epoch st in
  let min_change_count' :=
    if fltb (fabs (fsub (prev_loss st) loss)) min_change
    then min_change_count st + 1 else 0 in
  let log' := epochs_log st ++ [(epoch, learning_rate, loss)] in
  if 2 <? min_change_count'
  then Some (mkTrain model' (prev_loss st) min_change_count'
                     best_loss' best_epoch' best_acc' log', true)
  else Some (mkTrain model' loss min_change_count'
                     best_loss' best_epoch' best_acc' log', false).

(** [Runner.train] and [Runner.train_np] from the initial loss on: the
    state when the method returns; its [best_loss] is the value returned.
    [train_np] formats [best_acc] after the loop, which raises when no
    epoch has bound it. *)
Definition train_driver (m : St) (epochs : Z)
    (learning_rate anneal min_change : F) : option (train_state St F) :=
  initial_loss ← dev_loss m;
  _ ← match dev_acc with Some f => Some <$> f m | None => Some None end;
  let a0 := learning_rate in
  let st0 := mkTrain (save_params m) initial_loss (-1) initial_loss 0 None [] in
  st ← for_break (epoch_step a0 anneal min_change) st0 (py_range epochs);
  _ ← match dev_acc with Some _ => best_acc st | None => Some f0 end;
  Some (mkTrain (set_best_params (model st)) (prev_loss st)
                (min_change_count st) (best_loss st) (best_epoch st)
                (best_acc st) (epochs_log st)).

(** The loss an epoch is compared with: the initial loss for epoch 0, the
    loss of the epoch before otherwise. *)
Definition loss_before (initial_loss : F) (lg : list (Z * F * F)) (i : nat)
    : F :=
  match i with
  | O => initial_loss
  | S j => default initial_loss ((fun e : Z * F * F => e.2) <$> lg !! j)
  end.

(** Epoch [i] of the log changed the loss by less than [min_change]. *)
Definition small_change (min_change initial_loss : F)
    (lg : list (Z * F * F)) (i : nat) : Prop :=
  ∃ e, lg !! i = Some e ∧
       fltb (fabs (fsub (loss_before initial_loss lg i) e.2)) min_change
         = true.

(** The change of the loss between consecutive epochs was below
    [min_change] for three epochs in a row, [k] being the last: the epochs
    [k-2], [k-1] and [k] are each compared with the epoch before. *)
Definition plateau_at (min_change initial_loss : F)
    (lg : list (Z * F * F)) (k : nat) : Prop :=
  (3 <= k)%nat ∧
  small_change min_change initial_loss lg k ∧
  small_change min_change initial_loss lg (k - 1) ∧
  small_change min_change initial_loss lg (k - 2).
(** The state after [k] epochs that did not leave the loop. *)
Definition train_inv (a0 anneal min_change initial_loss : F)
    (st : train_state St F) (k : nat) : Prop :=
  let lg := epochs_log st in
  let cnt := min_change_count st in
  length lg = k ∧
  (∀ i e, lg !! i = Some e →
     e.1 = (Z.of_nat i, epoch_learning_rate a0 anneal (Z.of_nat i))) ∧
  prev_loss st = loss_before initial_loss lg k ∧
  (k = 0%nat → cnt = -1) ∧
  ((0 < k)%nat →
     0 <= cnt <= 2 ∧ cnt <= Z.of_nat k - 1 ∧
     (∀ i : nat, Z.of_nat k - cnt <= Z.of_nat i < Z.of_nat k →
        (1 <= i)%nat ∧ small_change min_change initial_loss lg i) ∧
     (∀ i : nat, Z.of_nat i = Z.of_nat k - 1 - cnt →
        i = 0%nat ∨ ¬ small_change min_change initial_loss lg i)) ∧
  (∀ j, (j < k)%nat → ¬ plateau_at min_change initial_loss lg j).

(** What holds when the loop is over, [N] being the number of epochs
    asked for. *)
Definition train_post (a0 anneal min_change initial_loss : F)
    (N : nat) (lg : list (Z * F * F)) : Prop :=
  (length lg <= N)%nat ∧
  (∀ i e, lg !! i = Some e →
     e.1 = (Z.of_nat i, epoch_learning_rate a0 anneal (Z.of_nat i))) ∧
  ((length lg < N)%nat →
     plateau_at min_change initial_loss lg (length lg - 1)) ∧
  (∀ j, (j + 1 < length lg)%nat →
     ¬ plateau_at min_change initial_loss lg j).

(** The epochs of a log, replayed from the model [m] and the least loss
    [best] seen so far: each epoch trains the model it starts from with the
    rate logged for it (the argument of [apply_deltas]), measures the loss
    logged for it, and saves the parameters when the loss has improved;
    [r] is the model and the least loss after the last epoch. *)
Fixpoint epochs_run (m : St) (best : F) (lg : list (Z * F * F))
    (r : St * F) : Prop :=
  match lg with
  | [] => r = (m, best)
  | e :: lg' =>
      ∃ trained,
        epoch_body m e.1.2 = Some trained ∧ dev_loss trained = Some e.2 ∧
        epochs_run (if fltb e.2 best then save_params trained else trained)
                   (if fltb e.2 best then e.2 else best) lg' r
  end.
End Training.

(** [Runner.train]: no accuracy is computed. *)
Definition train {F} `{Arith F} `{Division F} `{Ordered F} {St}
    (epoch_body : St -> F -> option St) (dev_loss : St -> option F)
    (save_params set_best_params : St -> St) :=
  train_driver epoch_body dev_loss None save_params set_best_params.

(** [Runner.train_np]: the accuracy on the dev set is computed as well. *)
Definition train_np {F} `{Arith F} `{Division F} `{Ordered F} {St}
    (epoch_body : St -> F -> option St) (dev_loss dev_acc : St -> option F)
    (save_params set_best_params : St -> St) :=
  train_driver epoch_body dev_loss (Some dev_acc) save_params set_best_params.

(** ** The forward pass as a recurrence *)

Section Recurrence.
Context {F : Type} `{Arith F} `{Division F} `{Analytic F}.

(** One cell of the network: from a word and the hidden state before it,
    the new hidden state [sigmoid(V onehot(x) + U s)] and the output
    [softmax(W s')]. *)
Definition rnn_cell (m : RNN F) (xt : Z) (sp : list F)
    : option (list F * list F) :=
  one_hot_x ← make_onehot xt (vocab_size m);
  a ← np_matvec (V m) one_hot_x;
  b ← np_matvec (U m) sp;
  net_in ← vadd a b;
  net_out ← np_matvec (W m) (sigmoid net_in);
  Some (sigmoid net_in, softmax net_out).

(** The cells along a sentence, each fed the hidden state of the one
    before; [sp] is the state before the first word. *)
Fixpoint rnn_unroll (m : RNN F) (sp : list F) (x : list Z)
    : option (list (list F * list F)) :=
  match x with
  | [] => Some []
  | xt :: x' =>
      c ← rnn_cell m xt sp; r ← rnn_unroll m c.1 x'; Some (c :: r)
  end.

(** The hidden state after the cells [r], [sp] being the one before
    them. *)
Definition last_state (sp : list F) (r : list (list F * list F)) : list F :=
  default sp (fst <$> last r).
End Recurrence.

(** ** Accuracy, mean loss and the parameter search *)

Section Evaluation.
Context {F : Type} `{Arith F} `{Division F} `{Analytic F} `{Ordered F}.

(** The scan of [np.argmax] from a current best entry [best] at index
    [best_i]: a later entry takes over only when it is strictly greater, so
    that the first occurrence of the maximum wins. *)
Fixpoint argmax_from (best_i : nat) (best : F) (i : nat) (v : list F) : nat :=
  match v with
  | [] => best_i
  | a :: v' =>
      if fltb best a then argmax_from i a (S i) v'
      else argmax_from best_i best (S i) v'
  end.

(** [np.argmax] of a 1-D array; numpy raises ValueError on an empty one. *)
Definition np_argmax (v : list F) : option Z :=
  match v with
  | [] => None
  | a :: v' => Some (Z.of_nat (argmax_from 0 a 1 v'))
  end.

(** [Runner.compute_acc_np]. *)
Definition compute_acc_np (m : RNN F) (x d : list Z) : option Z :=
  ys ← predict m x;
  let t := py_len x - 1 in
  yt ← py_index ys.1 t;
  i ← np_argmax yt;
  d0 ← py_index d 0;
  Some (if bool_decide (i = d0) then 1 else 0).

(** [Runner.compute_mean_loss]: the body of the loop over [zip(X, D)]; the
    loop carries [mean_loss] and [word_count]. *)
Definition compute_mean_loss_step (m : RNN F) (st : F * Z)
    (xd : list Z * list Z) : option (F * Z) :=
  l ← compute_loss m xd.1 xd.2;
  Some (fadd st.1 l, st.2 + py_len xd.1).

(** [Runner.compute_mean_loss]; the division of a float by the integer 0
    raises ZeroDivisionError. *)
Definition compute_mean_loss (m : RNN F) (X D : list (list Z)) : option F :=
  st ← foldM (compute_mean_loss_step m) (f0, 0) (zip X D);
  if bool_decide (st.2 = 0) then None else Some (fdiv st.1 (of_int st.2)).
End Evaluation.

Section ParameterSearch.
Context {F : Type} `{Ordered F}.
(** What the runs share and change: the random generator, seeded once at
    the start of the script, that [RNN.__init__] and [train] draw from. *)
Context {G : Type}.
(** Lines 447 to 451 of the script: build an RNN with the given hidden
    size, train it with the given learning rate and lookback, and return
    its mean loss on the dev set. *)
Variable run : G -> Z -> F -> Z -> option (F * G).

(** Lines 455 to 461: the bookkeeping of [min_loss] and of the three
    [best_...] variables, which are set together. *)
Definition search_update (st : option F * option (Z * F * Z))
    (params : Z * F * Z) (run_loss : F) : option F * option (Z * F * Z) :=
  match st.1 with
  | None => (Some run_loss, st.2)
  | Some min_loss =>
      if fltb run_loss min_loss then (Some run_loss, Some params) else st
  end.

(** The body of the innermost loop. *)
Definition search_step (st : G * (option F * option (Z * F * Z)))
    (hidden_dim_param : Z) (lr_param : F) (lookback_param : Z)
    : option (G * (option F * option (Z * F * Z))) :=
  r ← run st.1 hidden_dim_param lr_param lookback_param;
  Some (r.2, search_update st.2 (hidden_dim_param, lr_param, lookback_param)
                           r.1).

(** Lines 439 to 461: the three nested loops of the mode
    [hyperparameter]; returns [min_loss] and the best parameters. *)
Definition parameter_search (g : G) (hidden_dim_params : list Z)
    (lr_params : list F) (lookback_params : list Z)
    : option (G * (option F * option (Z * F * Z))) :=
  foldM (fun st hidden_dim_param =>
    foldM (fun st lr_param =>
      foldM (fun st lookback_param =>
               search_step st hidden_dim_param lr_param lookback_param)
            st lookback_params)
      st lr_params)
    (g, (None, None)) hidden_dim_params.

(** The parameter triples in the order the loops visit them. *)
Definition search_order (hidden_dim_params : list Z) (lr_params : list F)
    (lookback_params : list Z) : list (Z * F * Z) :=
  h ← hidden_dim_params; l ← lr_params; b ← lookback_params; [(h, l, b)].

(** The runs alone, one after the other: each triple with the loss of its
    run. *)
Fixpoint search_runs (g : G) (params : list (Z * F * Z))
    : option (list (Z * F * Z * F) * G) :=
  match params with
  | [] => Some ([], g)
  | c :: params' =>
      r ← run g c.1.1 c.1.2 c.2;
      rs ← search_runs r.2 params';
      Some ((c, r.1) :: rs.1, rs.2)
  end.
End ParameterSearch.

(** ** A small model for running the methods *)

(** Vocabulary of 2 words, 1 hidden unit, 2 output classes, accumulators
    at zero as after [__init__] or [apply_deltas]. *)
Definition demo_rnn : RNN Q :=
  mkRNN 2 1 2 [[1%Q]] [[0%Q; 0%Q]] [[1%Q]; [2%Q]]
        [[0%Q]] [[0%Q; 0%Q]] [[0%Q]; [0%Q]].

(** Traces of the shapes [predict] returns for a sentence of two words:
    two output distributions, two hidden states and the zero state that
    [s[-1]] reads. *)
Definition demo_y : list (list Q) := [[1#4; 3#4]; [1#2; 1#2]]%Q.
Definition demo_s : list (list Q) := [[1#2]; [1#3]; [0]]%Q.

(** The same for a sentence of one word. *)
Definition demo_y1 : list (list Q) := [[1#4; 3#4]]%Q.
Definition demo_s1 : list (list Q) := [[1#2]; [0]]%Q.

(** The same for a sentence of three words. *)
Definition demo_y3 : list (list Q) := [[1#4; 3#4]; [1#2; 1#2]; [1#2; 1#2]]%Q.
Definition demo_s3 : list (list Q) := [[1#2]; [1#3]; [1#2]; [0]]%Q.

(** The same model over the reals. *)
Definition demo_rnn_R : RNN R :=
  mkRNN 2 1 2 [[1%R]] [[0%R; 0%R]] [[1%R]; [2%R]]
        [[0%R]] [[0%R; 0%R]] [[0%R]; [0%R]].

(** Traces over the reals of the shapes [predict] returns for a sentence
    of two words. *)
Definition demo_y_R : list (list R) := [[1/4; 3/4]; [1/2; 1/2]]%R.
Definition demo_s_R : list (list R) := [[1/2]; [1/3]; [0]]%R.

(** A model over the reals whose output weights are all 0: every class
    gets the same probability. *)
Definition demo_flat_R : RNN R :=
  mkRNN 2 1 2 [[1%R]] [[0%R; 0%R]] [[0%R]; [0%R]]
        [[0%R]] [[0%R; 0%R]] [[0%R]; [0%R]].

(** ** A small training run *)

(** A stand-in for the model: the number of passes over the training set
    so far.  The dev loss is 1 before training and 1/2 after every pass, so
    that the loss stops changing after the first epoch. *)
Definition demo_epoch_body (m : nat) (learning_rate : Q) : option nat :=
  Some (S m).
Definition demo_dev_loss (m : nat) : option Q :=
  Some (if Nat.eqb m 0 then 1 else 1 # 2)%Q.
Definition demo_dev_acc (m : nat) : option Q := Some (1 # 2)%Q.
Definition demo_save_params (m : nat) : nat := m.
Definition demo_set_best_params (m : nat) : nat := m.


(** A stand-in for the model that keeps the learning rates it was trained
    with; the dev loss is 1 before training and 1/2 after every pass. *)
Definition demo_rates_body (m : list Q) (learning_rate : Q)
    : option (list Q) :=
  Some (m ++ [learning_rate]).
Definition demo_rates_loss (m : list Q) : option Q :=
  Some (match m with [] => 1 | _ => 1 # 2 end)%Q.

(** [train] on it, with the arguments of [demo_train]. *)
Definition demo_rates_train : option (train_state (list Q) Q) :=
  train demo_rates_body demo_rates_loss (fun m => m) (fun m => m)
        [] 10 (1 # 2)%Q 5%Q (1 # 10000)%Q.

(** ** A small parameter search *)

(** A run whose loss is the learning rate; the generator counts the runs. *)
Definition demo_run (g : nat) (hidden_dim_param : Z) (lr_param : Q)
    (lookback_param : Z) : option (Q * nat) :=
  Some (lr_param, S g).

(** * Lemmas *)

(** Case analysis on the first computation of a chain of binds. *)
Ltac bind_case :=
  match goal with
  | |- context [mbind _ ?o] =>
      lazymatch o with
      | context [mbind _ _] => fail
      | _ => destruct o eqn:?
      end
  end; simpl.

(** ** Loops *)

Lemma foldM_app {A B} (f : A -> B -> option A) a l1 l2 :
  foldM f a (l1 ++ l2) = a' ← foldM f a l1; foldM f a' l2.
Proof.
  revert a. induction l1 as [|b l1 IH]; intros a; simpl; [done|].
  destruct (f a b); simpl; [apply IH | done].
Qed.

Lemma bind_Some {A B} (a : A) (f : A -> option B) : Some a ≫= f = f a.
Proof. done. Qed.

Lemma foldM_singleton {A B} (f : A -> B -> option A) a b :
  foldM f a [b] = f a b.
Proof. simpl. by destruct (f a b). Qed.

(** A loop raises as soon as one of its iterations raises in every state. *)
Lemma foldM_raises {A B} (f : A -> B -> option A) a l b :
  b ∈ l → (∀ a', f a' b = None) → foldM f a l = None.
Proof.
  intros Hin Hb. revert a. induction Hin as [b l|b c l _ IH]; intros a; simpl.
  - by rewrite Hb.
  - destruct (f a c); simpl; [by apply IH | done].
Qed.

Lemma foldM_invariant {A B} (P : A -> Prop) (f : A -> B -> option A) l a a' :
  (∀ a b a', P a → f a b = Some a' → P a') →
  P a → foldM f a l = Some a' → P a'.
Proof.
  intros Hf. revert a. induction l as [|b l IH]; intros a Ha; simpl.
  - by intros [= <-].
  - destruct (f a b) as [a1|] eqn:E; simpl; [|done]. eauto.
Qed.

Lemma for_break_invariant {A B} (P : A -> Prop)
    (f : A -> B -> option (A * bool)) l a a' :
  (∀ a b r, P a → f a b = Some r → P r.1) →
  P a → for_break f a l = Some a' → P a'.
Proof.
  intros Hf. revert a. induction l as [|b l IH]; intros a Ha; simpl.
  - by intros [= <-].
  - destruct (f a b) as [r|] eqn:E; simpl; [|done].
    pose proof (Hf a b r Ha E) as Hr.
    destruct r.2; [by intros [= <-]|]. by apply IH.
Qed.

(** ** Python indexing *)

Lemma py_range_length n : length (py_range n) = Z.to_nat n.
Proof. apply length_seqZ. Qed.

Lemma elem_of_py_range n k : k ∈ py_range n ↔ 0 <= k < n.
Proof. unfold py_range. rewrite elem_of_seqZ. lia. Qed.

Lemma py_index_nonneg {A} (l : list A) i :
  0 <= i → py_index l i = l !! Z.to_nat i.
Proof. intros Hi. unfold py_index. by rewrite (proj2 (Z.leb_le _ _) Hi). Qed.

Lemma py_index_wrap {A} (l : list A) i :
  - py_len l <= i < 0 → py_index l i = l !! Z.to_nat (py_len l + i).
Proof.
  intros [H1 H2]. unfold py_index.
  rewrite (proj2 (Z.leb_gt _ _) H2). by rewrite (proj2 (Z.leb_le _ _) H1).
Qed.

Lemma py_index_before {A} (l : list A) i :
  i < - py_len l → py_index l i = None.
Proof.
  intros Hi. unfold py_index.
  rewrite (proj2 (Z.leb_gt 0 i)) by (unfold py_len in *; lia).
  by rewrite (proj2 (Z.leb_gt _ _) Hi).
Qed.

Lemma py_index_elem {A} (l : list A) i a : py_index l i = Some a → a ∈ l.
Proof.
  unfold py_index. repeat case_match; try done; apply list_elem_of_lookup_2.
Qed.

Lemma py_index_is_Some {A} (l : list A) i :
  - py_len l <= i < py_len l → is_Some (py_index l i).
Proof.
  intros Hi. unfold py_len in Hi. destruct (decide (0 <= i)).
  - rewrite py_index_nonneg by done. apply lookup_lt_is_Some. lia.
  - rewrite py_index_wrap by (unfold py_len; lia).
    apply lookup_lt_is_Some. unfold py_len. lia.
Qed.

(** [reversed(range(n))] counts down from [n-1] to 0. *)
Lemma py_range_reversed (n : nat) :
  reverse (py_range (Z.of_nat n))
    = (fun i => Z.of_nat n - 1 - Z.of_nat i) <$> seq 0 n.
Proof.
  unfold py_range. induction n as [|n IH]; [done|].
  rewrite seqZ_S, reverse_snoc, IH.
  rewrite <- cons_seq, <- fmap_S_seq. simpl. f_equal; [lia|].
  rewrite <- list_fmap_compose. apply list_fmap_ext.
  intros _ i _. simpl. lia.
Qed.

(** ** Shapes of the numpy operations *)

Section ShapeLemmas.
Context {F : Type} `{Arith F}.
Implicit Types (a b v : list F) (M : list (list F)).

Lemma vzip_Some f a b :
  length a = length b → vzip f a b = Some (zip_with f a b).
Proof. intros E. unfold vzip. by rewrite decide_True. Qed.

Lemma vzip_length f a b c :
  vzip f a b = Some c → length a = length b ∧ length c = length a.
Proof.
  unfold vzip. case_decide; [|done]. intros [= <-].
  rewrite length_zip_with. lia.
Qed.

Lemma np_matvec_Some M v :
  Forall (fun row => length row = length v) M →
  ∃ r, np_matvec M v = Some r ∧ length r = length M.
Proof.
  intros HM.
  destruct (mapM_is_Some_2 (fun row => np_dot row v) M) as [r Hr].
  - eapply Forall_impl; [exact HM|]. intros row E. simpl.
    unfold np_dot, vmul. rewrite vzip_Some by done. by eexists.
  - exists r. split; [done|]. symmetry. by eapply length_mapM.
Qed.

Lemma np_matvec_length M v r : np_matvec M v = Some r → length r = length M.
Proof. intros Hr. symmetry. by eapply length_mapM. Qed.

Lemma np_transpose_shape c M : has_shape c (length M) (np_transpose c M).
Proof.
  unfold np_transpose. split.
  - by rewrite length_map, length_seq.
  - apply Forall_forall. intros row [j [-> _]]%list_elem_of_fmap.
    by rewrite length_map.
Qed.

Lemma np_outer_shape a b : has_shape (length a) (length b) (np_outer a b).
Proof.
  unfold np_outer. split; [by rewrite length_map|].
  apply Forall_forall. intros row [ai [-> _]]%list_elem_of_fmap.
  by rewrite length_map.
Qed.

Lemma np_zeros2_shape r c : has_shape r c (np_zeros2 r c : list (list F)).
Proof.
  unfold np_zeros2, np_zeros. split; [by rewrite length_replicate|].
  apply Forall_replicate. by rewrite length_replicate.
Qed.

Lemma make_onehot_Some i size :
  0 <= i < Z.of_nat size →
  make_onehot i size = Some (<[Z.to_nat i := f1]> (np_zeros size)).
Proof. intros Hi. unfold make_onehot. by rewrite bool_decide_eq_true_2. Qed.



Lemma grad_length v : length (grad v) = length v.
Proof. unfold grad. by rewrite length_map. Qed.

Lemma madd_Some r c (A B : list (list F)) :
  has_shape r c A → has_shape r c B →
  ∃ C, madd A B = Some C ∧ has_shape r c C.
Proof.
  intros [HA1 HA2] [HB1 HB2]. unfold madd.
  rewrite decide_True by congruence.
  destruct (mapM_is_Some_2 (fun ab => vadd ab.1 ab.2) (zip A B)) as [C HC].
  { apply Forall_forall. intros [a b] Hin. simpl.
    unfold vadd. rewrite vzip_Some; [done|].
    rewrite (proj1 (Forall_forall _ _) HA2 a) by by eapply elem_of_zip_l.
    by rewrite (proj1 (Forall_forall _ _) HB2 b) by by eapply elem_of_zip_r. }
  exists C. split; [done|]. split.
  - rewrite <- (length_mapM _ _ _ HC), length_zip. lia.
  - apply mapM_Some_1 in HC.
    eapply Forall2_Forall_r; [exact HC|].
    apply Forall_forall. intros [a b] Hin row Hrow. simpl in Hrow.
    apply vzip_length in Hrow as [_ ->].
    apply (proj1 (Forall_forall _ _) HA2 a). by eapply elem_of_zip_l.
Qed.

Lemma has_shape_index r c M i row :
  has_shape r c M → py_index M i = Some row → length row = c.
Proof.
  intros [_ HM] Hi. apply py_index_elem in Hi.
  by eapply (proj1 (Forall_forall _ _) HM).
Qed.
End ShapeLemmas.

(** ** Loops that only add contributions to accumulators *)

Lemma gather_length {B C K} (f : C -> B -> option (K * C)) l c r :
  gather f c l = Some r → length r.1 = length l.
Proof.
  revert c r. induction l as [|b l IH]; intros c r; simpl.
  - by intros [= <-].
  - destruct (f c b) as [kc|]; simpl; [|done].
    destruct (gather f kc.2 l) as [r'|] eqn:E; simpl; [|done].
    intros [= <-]. simpl. f_equal. eauto.
Qed.

Lemma gather_ext {B C K} (f f' : C -> B -> option (K * C)) :
  (∀ c b, f c b = f' c b) → ∀ l c, gather f c l = gather f' c l.
Proof.
  intros Hf. induction l as [|b l IH]; intros c; simpl; [done|].
  rewrite Hf. destruct (f' c b) as [kc|]; simpl; [|done]. by rewrite IH.
Qed.

Lemma foldM_gather {A B C K} (P : A -> Prop)
    (step : A * C -> B -> option (A * C))
    (f : C -> B -> option (K * C)) (g : A -> K -> option A) :
  (∀ a c b, P a →
     step (a, c) b = kc ← f c b; a' ← g a kc.1; Some (a', kc.2)) →
  (∀ a k a', P a → g a k = Some a' → P a') →
  ∀ l a c, P a →
    foldM step (a, c) l
      = r ← gather f c l; a' ← foldM g a r.1; Some (a', r.2).
Proof.
  intros Hstep Hg. induction l as [|b l IH]; intros a c Ha; simpl; [done|].
  rewrite Hstep by done. destruct (f c b) as [[k c']|]; simpl; [|done].
  destruct (g a k) as [a1|] eqn:E; simpl.
  - rewrite IH by eauto.
    destruct (gather f c' l) as [r|]; simpl; [|done]. by rewrite E.
  - destruct (gather f c' l) as [r|]; simpl; [|done]. by rewrite E.
Qed.

Lemma foldM_mapM {A B K} (P : A -> Prop) (step : A -> B -> option A)
    (f : B -> option K) (g : A -> K -> option A) :
  (∀ a b, P a → step a b = k ← f b; g a k) →
  (∀ a k a', P a → g a k = Some a' → P a') →
  ∀ l a, P a → foldM step a l = ks ← mapM f l; foldM g a ks.
Proof.
  intros Hstep Hg. induction l as [|b l IH]; intros a Ha; simpl; [done|].
  rewrite Hstep by done. destruct (f b) as [k|]; simpl; [|done].
  destruct (g a k) as [a1|] eqn:E; simpl.
  - rewrite IH by eauto. destruct (mapM f l); simpl; [|done]. by rewrite E.
  - destruct (mapM f l); simpl; [|done]. by rewrite E.
Qed.

Section ContributionLemmas.
Context {F : Type} `{Arith F}.

Lemma same_params_refl (m : RNN F) : same_params m m.
Proof. by repeat split. Qed.

Lemma same_params_trans (m1 m2 m3 : RNN F) :
  same_params m1 m2 → same_params m2 m3 → same_params m1 m3.
Proof. unfold same_params. intuition congruence. Qed.

Lemma same_params_set_deltaW (m : RNN F) a : same_params m (set_deltaW m a).
Proof. by repeat split. Qed.

Lemma add_VU_same_params m k m' : add_VU m k = Some m' → same_params m m'.
Proof.
  unfold add_VU. repeat bind_case; try done. intros [= <-]. by repeat split.
Qed.

Lemma add_VU_deltaW m k m' : add_VU m k = Some m' → deltaW m' = deltaW m.
Proof. unfold add_VU. repeat bind_case; try done. by intros [= <-]. Qed.

Lemma bptt_inner_contrib_params m m' x s t c t_ :
  same_params m m' →
  bptt_inner_contrib m' x s t c t_ = bptt_inner_contrib m x s t c t_.
Proof.
  intros (Hv & Hh & _ & HU & _). unfold bptt_inner_contrib.
  by rewrite Hv, Hh, HU.
Qed.

Lemma bptt_inner_split m x s t c t_ :
  bptt_inner x s t (m, c) t_ =
    kc ← bptt_inner_contrib m x s t c t_;
    m' ← add_VU m kc.1; Some (m', kc.2).
Proof.
  unfold bptt_inner, bptt_inner_contrib, add_VU.
  case_bool_decide; repeat bind_case; simplify_eq/=; congruence.
Qed.

(** The inner loop: first all contributions, then the additions. *)
Lemma bptt_inner_loop m x s t c l :
  foldM (bptt_inner x s t) (m, c) l =
    r ← gather (bptt_inner_contrib m x s t) c l;
    m' ← foldM add_VU m r.1; Some (m', r.2).
Proof.
  apply (foldM_gather (same_params m)).
  - intros a c' b Ha. rewrite bptt_inner_split.
    by rewrite (bptt_inner_contrib_params m a).
  - intros a k a' Ha Hk. eapply same_params_trans; [done|].
    by eapply add_VU_same_params.
  - apply same_params_refl.
Qed.

Lemma foldM_add_VU_same_params l m m' :
  foldM add_VU m l = Some m' → same_params m m'.
Proof.
  apply (foldM_invariant (same_params m)); [|apply same_params_refl].
  intros a b a' Ha Hb. eapply same_params_trans; [done|].
  by eapply add_VU_same_params.
Qed.

Lemma foldM_add_VU_deltaW l m m' :
  foldM add_VU m l = Some m' → deltaW m' = deltaW m.
Proof.
  apply (foldM_invariant (fun a => deltaW a = deltaW m)); [|done].
  intros a b a' Ha Hb. apply add_VU_deltaW in Hb. congruence.
Qed.

(** Additions to [deltaV] and [deltaU] commute with an assignment to
    [deltaW]. *)
Lemma foldM_add_VU_set_deltaW l m b :
  foldM add_VU (set_deltaW m b) l =
    (fun m' => set_deltaW m' b) <$> foldM add_VU m l.
Proof.
  revert m. induction l as [|k l IH]; intros m; simpl; [done|].
  replace (add_VU (set_deltaW m b) k)
    with ((fun m' => set_deltaW m' b) <$> add_VU m k).
  - destruct (add_VU m k) as [m1|]; simpl; [apply IH | done].
  - unfold add_VU. simpl.
    destruct (madd (deltaV m) k.1) as [dV|]; simpl; [|done].
    by destruct (madd (deltaU m) k.2) as [dU|].
Qed.

Lemma bptt_np_contribs_params m m' x d y s steps :
  same_params m m' →
  bptt_np_contribs m' x d y s steps = bptt_np_contribs m x d y s steps.
Proof.
  intros Hp. pose proof Hp as (_ & Hh & Ho & _ & _ & HW).
  assert (Hg : ∀ t c l, gather (bptt_inner_contrib m' x s t) c l
                     = gather (bptt_inner_contrib m x s t) c l).
  { intros t c l. apply gather_ext. intros c' b.
    by apply bptt_inner_contrib_params. }
  unfold bptt_np_contribs. rewrite Hh, Ho, HW.
  repeat bind_case; rewrite ?Hg in *; simplify_eq/=; congruence.
Qed.

(** One call of [acc_deltas_bptt_np] assigns [deltaW] and adds the
    contributions of its inner loop to [deltaV] and [deltaU]. *)
Lemma acc_deltas_bptt_np_split m x d y s steps :
  acc_deltas_bptt_np m x d y s steps =
    k ← bptt_np_contribs m x d y s steps;
    foldM add_VU (set_deltaW m k.1) k.2.
Proof.
  unfold acc_deltas_bptt_np, bptt_np_contribs.
  repeat bind_case; try done; rewrite bptt_inner_loop in *;
    match goal with
    | |- context [bptt_inner_contrib (set_deltaW m ?a)] =>
        change (bptt_inner_contrib (set_deltaW m a))
          with (bptt_inner_contrib m)
    end;
    match goal with Hg : gather _ _ _ = _ |- _ => rewrite Hg end;
    simpl; [|done].
  by destruct (foldM add_VU _ _).
Qed.

End ContributionLemmas.


(** * The single-label BPTT method *)

Section BpttNp.
Context {F : Type} `{Arith F}.

Lemma py_range_nil n : n <= 0 → py_range n = [].
Proof. apply seqZ_nil. Qed.

(** On a sentence of one word the inner loop has nothing to run. *)
Lemma acc_deltas_bptt_np_one_word (m : RNN F) x d y s steps :
  length x = 1%nat →
  acc_deltas_bptt_np m x d y s steps =
    d0 ← py_index d 0;
    one_hot_dt ← make_onehot d0 (out_vocab_size m);
    yt ← py_index y 0;
    delta_out ← vsub one_hot_dt yt;
    st ← py_index s 0;
    back ← np_matvec (np_transpose (hidden_dims m) (W m)) delta_out;
    _ ← vmul back (grad st);
    Some (set_deltaW m (np_outer delta_out st)).
Proof.
  intros Hx. unfold acc_deltas_bptt_np, py_len. rewrite Hx.
  change (Z.of_nat 1 - 1) with 0. simpl.
  rewrite py_range_nil by lia. simpl.
  repeat bind_case; done.
Qed.

(** C9. On every sentence of one word and for every [steps],
    [acc_deltas_bptt_np] leaves [deltaV] and [deltaU] (and the weights) as
    they were and assigns [deltaW]; on a well-shaped model and traces with
    a valid label the call returns, and the new [deltaW] is the outer
    product of [onehot(d[0]) - y[0]] with [s[0]]. *)
Theorem acc_deltas_bptt_np_one_word_frame (m : RNN F) x d y s steps :
  length x = 1%nat →
  (∀ m', acc_deltas_bptt_np m x d y s steps = Some m' →
     deltaV m' = deltaV m ∧ deltaU m' = deltaU m ∧ same_params m m') ∧
  (∀ d0, wf_rnn m → wf_traces m x y s → py_index d 0 = Some d0 →
     0 <= d0 < Z.of_nat (out_vocab_size m) →
     ∃ m' one_hot_dt yt delta_out st,
       acc_deltas_bptt_np m x d y s steps = Some m' ∧
       make_onehot d0 (out_vocab_size m) = Some one_hot_dt ∧
       py_index y 0 = Some yt ∧ vsub one_hot_dt yt = Some delta_out ∧
       py_index s 0 = Some st ∧ deltaW m' = np_outer delta_out st).
Proof.
  intros Hx. rewrite acc_deltas_bptt_np_one_word by done. split.
  - intros m'. repeat bind_case; try done. intros [= <-]. by repeat split.
  - intros d0 Hm [Hy Hs] Hd Hd0. rewrite Hd. simpl.
    rewrite make_onehot_Some by done. simpl.
    destruct (py_index_is_Some y 0) as [yt Hyt].
    { destruct Hy as [Hy _]. unfold py_len. lia. }
    destruct (py_index_is_Some s 0) as [st Hst].
    { destruct Hs as [Hs _]. unfold py_len. lia. }
    rewrite Hyt, Hst. simpl.
    pose proof (has_shape_index _ _ _ _ _ Hy Hyt) as Lyt.
    pose proof (has_shape_index _ _ _ _ _ Hs Hst) as Lst.
    set (oh := <[Z.to_nat d0:=f1]> (np_zeros (out_vocab_size m))).
    assert (Loh : length oh = out_vocab_size m).
    { unfold oh, np_zeros. by rewrite length_insert, length_replicate. }
    unfold vsub at 1. rewrite vzip_Some by congruence. simpl.
    set (delta_out := zip_with fsub oh yt).
    assert (Ldo : length delta_out = out_vocab_size m).
    { unfold delta_out. rewrite length_zip_with. lia. }
    destruct (np_matvec_Some (np_transpose (hidden_dims m) (W m)) delta_out)
      as (back & Hback & Lback).
    { destruct (np_transpose_shape (hidden_dims m) (W m)) as [_ HT].
      destruct (wf_W m Hm) as [HW _]. rewrite HW in HT.
      eapply Forall_impl; [exact HT|]. simpl. congruence. }
    rewrite Hback. simpl.
    destruct (np_transpose_shape (hidden_dims m) (W m)) as [LT _].
    unfold vmul. rewrite vzip_Some by (rewrite grad_length; congruence).
    simpl. exists (set_deltaW m (np_outer delta_out st)), oh, yt, delta_out, st.
    repeat split; try done. unfold vsub. by rewrite vzip_Some by congruence.
Qed.

(** C6. The inner loop of [acc_deltas_bptt_np] runs over
    [range(min(steps+1, t))] with [t = len(x)-1]: a call that returns has
    added exactly that many contributions to [deltaV] and [deltaU], and in
    every iteration [t - t_ >= 1], so that [x[t-t_]], [s[t-t_]],
    [s[t-t_-1]] and [s[t-1]] are read at indices that are not negative. *)
Theorem acc_deltas_bptt_np_iterations (m : RNN F) x d y s steps :
  let t := py_len x - 1 in
  Z.of_nat (length (py_range (Z.min (steps + 1) t)))
    = Z.max 0 (Z.min (steps + 1) t) ∧
  (∀ t_, t_ ∈ py_range (Z.min (steps + 1) t) →
     0 <= t_ ∧ 1 <= t - t_ ∧ 0 <= t - t_ - 1 ∧ 0 <= t - 1) ∧
  (∀ m', acc_deltas_bptt_np m x d y s steps = Some m' →
     ∃ k, bptt_np_contribs m x d y s steps = Some k ∧
          foldM add_VU (set_deltaW m k.1) k.2 = Some m' ∧
          length k.2 = Z.to_nat (Z.min (steps + 1) t)).
Proof.
  intros t. split; [|split].
  - rewrite py_range_length. lia.
  - intros t_ Ht%elem_of_py_range. lia.
  - intros m'. rewrite acc_deltas_bptt_np_split.
    destruct (bptt_np_contribs m x d y s steps) as [k|] eqn:Ek; simpl; [|done].
    intros Hm'. exists k. repeat split; [done|].
    revert Ek. unfold bptt_np_contribs. repeat bind_case; try done.
    intros [= <-]. simpl.
    match goal with Hg : gather _ _ _ = _ |- _ =>
      apply gather_length in Hg; rewrite Hg end.
    apply py_range_length.
Qed.

(** The single-label methods called twice in a row.  [acc_deltas_np]
    overwrites the three accumulators: a second call leaves them as a
    single call with its inputs does, whatever they held.
    [acc_deltas_bptt_np] overwrites [deltaW] only and adds the
    contributions of its inner loop to [deltaV] and [deltaU]: after two
    calls [deltaW] is the one of the second call, while [deltaV] and
    [deltaU] hold what they held before plus the contributions of both
    calls. *)
Theorem acc_deltas_np_overwrites_bptt_np_adds (m : RNN F)
    x1 d1 y1 s1 steps1 x2 d2 y2 s2 steps2 :
  (m1 ← acc_deltas_np m x1 d1 y1 s1; acc_deltas_np m1 x2 d2 y2 s2)
    = (_ ← acc_deltas_np m x1 d1 y1 s1; acc_deltas_np m x2 d2 y2 s2) ∧
  (∀ dU dV dW,
     acc_deltas_np (set_deltaU (set_deltaV (set_deltaW m dW) dV) dU)
                   x2 d2 y2 s2
       = acc_deltas_np m x2 d2 y2 s2) ∧
  (m1 ← acc_deltas_bptt_np m x1 d1 y1 s1 steps1;
     acc_deltas_bptt_np m1 x2 d2 y2 s2 steps2)
    = (k1 ← bptt_np_contribs m x1 d1 y1 s1 steps1;
       k2 ← bptt_np_contribs m x2 d2 y2 s2 steps2;
       foldM add_VU (set_deltaW m k2.1) (k1.2 ++ k2.2)) ∧
  (∀ dU dV dW,
     bptt_np_contribs (set_deltaU (set_deltaV (set_deltaW m dW) dV) dU)
                      x2 d2 y2 s2 steps2
       = bptt_np_contribs m x2 d2 y2 s2 steps2).
Proof.
  assert (Hnp : ∀ m1, same_params m m1 →
            acc_deltas_np m1 x2 d2 y2 s2 = acc_deltas_np m x2 d2 y2 s2).
  { intros m1 (Hv & Hh & Ho & HU & HV & HW).
    unfold acc_deltas_np. destruct m, m1; simpl in *; subst. done. }
  split; [|split; [|split]].
  - destruct (acc_deltas_np m x1 d1 y1 s1) as [m1|] eqn:E1; simpl; [|done].
    apply Hnp. revert E1. unfold acc_deltas_np. repeat bind_case; try done.
    intros [= <-]. by repeat split.
  - intros dU dV dW. apply Hnp. by repeat split.
  - rewrite acc_deltas_bptt_np_split.
    destruct (bptt_np_contribs m x1 d1 y1 s1 steps1) as [k1|]; simpl; [|done].
    destruct (foldM add_VU (set_deltaW m k1.1) k1.2) as [m1|] eqn:E1; simpl.
    + rewrite acc_deltas_bptt_np_split.
      rewrite (bptt_np_contribs_params m m1).
      2:{ eapply same_params_trans; [apply (same_params_set_deltaW m k1.1)|].
          by eapply foldM_add_VU_same_params. }
      destruct (bptt_np_contribs m x2 d2 y2 s2 steps2) as [k2|]; simpl; [|done].
      rewrite foldM_app.
      rewrite foldM_add_VU_set_deltaW in E1.
      rewrite (foldM_add_VU_set_deltaW k1.2 m k2.1).
      destruct (foldM add_VU m k1.2) as [m0|]; simplify_eq/=. done.
    + destruct (bptt_np_contribs m x2 d2 y2 s2 steps2) as [k2|]; simpl; [|done].
      rewrite foldM_app.
      rewrite foldM_add_VU_set_deltaW in E1.
      rewrite (foldM_add_VU_set_deltaW k1.2 m k2.1).
      by destruct (foldM add_VU m k1.2) as [m0|]; simplify_eq/=.
  - intros dU dV dW. apply bptt_np_contribs_params. by repeat split.
Qed.
End BpttNp.


Lemma demo_rnn_wf : wf_rnn demo_rnn.
Proof.
  split; simpl; try lia; (split; [reflexivity | by repeat constructor]).
Qed.

(** C9 at a sentence of one word with [steps = 3]. *)
Lemma acc_deltas_bptt_np_one_word_frame_witness :
  deltaV <$> acc_deltas_bptt_np demo_rnn [0] [1] demo_y1 demo_s1 3
    = Some (deltaV demo_rnn) ∧
  deltaU <$> acc_deltas_bptt_np demo_rnn [0] [1] demo_y1 demo_s1 3
    = Some (deltaU demo_rnn) ∧
  deltaW <$> acc_deltas_bptt_np demo_rnn [0] [1] demo_y1 demo_s1 3
    = Some [[-1#8]; [1#8]]%Q.
Proof.
  destruct (acc_deltas_bptt_np_one_word_frame
              demo_rnn [0] [1] demo_y1 demo_s1 3 eq_refl) as [Hframe Hret].
  destruct (Hret 1 demo_rnn_wf) as (m' & oh & yt & dout & st & E & Hoh & Hy
                                     & Hd & Hs & HW).
  - split; (split; [reflexivity | by repeat constructor]).
  - reflexivity.
  - simpl. lia.
  - destruct (Hframe m' E) as (HV & HU & _). rewrite E. simpl.
    rewrite HV, HU, HW.
    vm_compute in Hoh, Hy, Hs. simplify_eq. vm_compute in Hd. simplify_eq.
    by vm_compute.
Defined.

(** C6 at a sentence of three words with [steps = 4]: two iterations. *)
Lemma acc_deltas_bptt_np_iterations_witness :
  ∃ m' k,
    acc_deltas_bptt_np demo_rnn [0; 1; 0] [1] demo_y3 demo_s3 4 = Some m' ∧
    bptt_np_contribs demo_rnn [0; 1; 0] [1] demo_y3 demo_s3 4 = Some k ∧
    length k.2 = 2%nat.
Proof.
  destruct (acc_deltas_bptt_np demo_rnn [0; 1; 0] [1] demo_y3 demo_s3 4)
    as [m'|] eqn:E; [|by vm_compute in E].
  destruct (acc_deltas_bptt_np_iterations
              demo_rnn [0; 1; 0] [1] demo_y3 demo_s3 4) as (_ & _ & Hk).
  destruct (Hk m' E) as (k & Ek & _ & Lk).
  exists m', k. by repeat split.
Defined.

(** C2.  [acc_deltas_bptt_np] does not overwrite [deltaV] and [deltaU]:
    on the small model with zero accumulators, a second call with the same
    inputs leaves them at twice what the first call left, where the claim,
    and the sibling [acc_deltas_np], have them as after a single call. *)
Lemma acc_deltas_bptt_np_second_call_adds :
  let once := acc_deltas_bptt_np demo_rnn [0; 1] [1] demo_y demo_s 1 in
  let twice :=
    m1 ← once; acc_deltas_bptt_np m1 [0; 1] [1] demo_y demo_s 1 in
  deltaV <$> once = Some [[0; 1#9]]%Q ∧
  deltaV <$> twice = Some [[0; 2#9]]%Q ∧
  deltaU <$> once = Some [[1#18]]%Q ∧
  deltaU <$> twice = Some [[1#9]]%Q ∧
  twice ≠ once.
Proof. vm_compute. repeat split; congruence. Qed.

(** * The sequence-labelling BPTT method *)

Section Bptt.
Context {F : Type} `{Arith F}.

(** C1 fails on the code.  The inner loop of [acc_deltas_bptt] always runs
    over [range(steps+1)]: at the outer timestep 0 of a non-empty sentence
    it reaches [t_ = 1] as soon as [steps >= 1] and reads [x[-1]], which
    Python resolves to the last word; and when the sentence has fewer than
    [steps] words the read of [x[-(len(x)+1)]] raises IndexError, so the
    call does not return. *)
Theorem acc_deltas_bptt_reads_before_start (m : RNN F) x d y s steps :
  1 <= py_len x → 1 <= steps →
  (0 ∈ reverse (py_range (py_len x)) ∧ 1 ∈ py_range (steps + 1) ∧
   py_index x (0 - 1) = last x) ∧
  (py_len x < steps → acc_deltas_bptt m x d y s steps = None).
Proof.
  intros Hx Hsteps. split; [repeat split|].
  - apply elem_of_reverse, elem_of_py_range. lia.
  - apply elem_of_py_range. lia.
  - rewrite py_index_wrap by lia. rewrite last_lookup. f_equal.
    unfold py_len. lia.
  - intros Hshort. unfold acc_deltas_bptt.
    apply (foldM_raises _ _ _ 0).
    { apply elem_of_reverse, elem_of_py_range. lia. }
    intros m'. unfold acc_deltas_bptt_step.
    assert (Hinner : ∀ st,
      foldM (bptt_inner x s 0) st (py_range (steps + 1)) = None).
    { intros st. apply (foldM_raises _ _ _ (py_len x + 1)).
      - apply elem_of_py_range. lia.
      - intros [m2 c]. unfold bptt_inner.
        by rewrite (py_index_before x) by lia. }
    repeat bind_case; try done; by rewrite Hinner.
Qed.
End Bptt.

(** C1 at a sentence of one word with [steps = 2]. *)
Lemma acc_deltas_bptt_reads_before_start_witness :
  py_index [0] (0 - 1) = Some 0 ∧
  acc_deltas_bptt demo_rnn [0] [1] demo_y1 demo_s1 2 = None ∧
  is_Some (acc_deltas_bptt_np demo_rnn [0] [1] demo_y1 demo_s1 2).
Proof.
  destruct (acc_deltas_bptt_reads_before_start
              demo_rnn [0] [1] demo_y1 demo_s1 2) as [(_ & _ & Hlast) Hnone].
  - by vm_compute.
  - lia.
  - split; [exact Hlast|]. split; [apply Hnone; by vm_compute|].
    vm_compute. eauto.
Defined.

(** * The choice of the gradient method in the training loops *)

(** C3 fails on the code at [back_steps = 1]: the loops test
    [back_steps == 0], so one back step already selects the BPTT methods,
    whose accumulators differ from those of the standard methods. *)
Theorem train_instance_one_back_step_is_bptt :
  (∀ F (HA : Arith F) (HD : Division F) (HN : Analytic F)
     (m : RNN F) x d,
     train_instance m x d 1
       = (ys ← predict m x; acc_deltas_bptt m x d ys.1 ys.2 1) ∧
     train_np_instance m x d 1
       = (ys ← predict m x; acc_deltas_bptt_np m x d ys.1 ys.2 1)) ∧
  deltaV <$> acc_deltas demo_rnn [0; 1] [1; 0] demo_y demo_s
    = Some [[1#16; -1#9]]%Q ∧
  deltaV <$> acc_deltas_bptt demo_rnn [0; 1] [1; 0] demo_y demo_s 1
    = Some [[5#144; -1#9]]%Q ∧
  acc_deltas_np demo_rnn [0; 1; 0] [1] demo_y3 demo_s3
    ≠ acc_deltas_bptt_np demo_rnn [0; 1; 0] [1] demo_y3 demo_s3 1.
Proof.
  split; [|vm_compute; repeat split; congruence].
  intros. by split.
Qed.


(** * Standard back-propagation *)

Section StandardBackprop.
Context {F : Type} `{Arith F}.

Lemma acc_deltas_step_split (m : RNN F) x d y s t :
  acc_deltas_step x d y s m t =
    k ← bp_contrib (vocab_size m) (hidden_dims m) (out_vocab_size m) (W m)
                   x d y s t;
    add_WVU m k.
Proof.
  unfold acc_deltas_step, bp_contrib, add_WVU.
  repeat bind_case; simplify_eq/=; congruence.
Qed.

Lemma add_WVU_same_params (m : RNN F) k m' :
  add_WVU m k = Some m' → same_params m m'.
Proof.
  unfold add_WVU. repeat bind_case; try done. intros [= <-]. by repeat split.
Qed.

(** Adding a list of terms to the three accumulators is three independent
    sums. *)
Lemma foldM_add_WVU ks (m : RNN F) :
  foldM add_WVU m ks =
    dW ← foldM madd (deltaW m) ks.*1.*1;
    dV ← foldM madd (deltaV m) ks.*1.*2;
    dU ← foldM madd (deltaU m) ks.*2;
    Some (mkRNN (vocab_size m) (hidden_dims m) (out_vocab_size m)
                (U m) (V m) (W m) dU dV dW).
Proof.
  revert m. induction ks as [|k ks IH]; intros m.
  - by destruct m.
  - rewrite !fmap_cons. cbn [foldM].
    replace (add_WVU m k) with
      (dW ← madd (deltaW m) k.1.1; dV ← madd (deltaV m) k.1.2;
       dU ← madd (deltaU m) k.2;
       Some (set_deltaU (set_deltaV (set_deltaW m dW) dV) dU)) by done.
    destruct (madd (deltaW m) k.1.1) as [dW|]; simpl; [|done].
    destruct (madd (deltaV m) k.1.2) as [dV|]; simpl.
    2:{ by destruct (foldM madd dW ks.*1.*1). }
    destruct (madd (deltaU m) k.2) as [dU|]; simpl.
    2:{ destruct (foldM madd dW ks.*1.*1); simpl; [|done].
        by destruct (foldM madd dV ks.*1.*2). }
    by rewrite IH.
Qed.

(** C4. [acc_deltas] visits the timesteps [len(x)-1], ..., 0 in that order
    and adds to [deltaW], [deltaV] and [deltaU] the terms of each timestep:
    the outer product of the output error [onehot(d[t]) - y[t]] with [s[t]],
    and the outer products of the hidden error ([W] transposed applied to
    the output error, times the sigmoid gradient at [s[t]]) with
    [onehot(x[t])] and with [s[t-1]].  The terms of a timestep depend on no
    other timestep and not on [U]: changing [U] changes nothing in the
    accumulators. *)
Theorem acc_deltas_adds_single_step_terms (m : RNN F) x d y s :
  reverse (py_range (py_len x))
    = (fun i => py_len x - 1 - Z.of_nat i) <$> seq 0 (length x) ∧
  acc_deltas m x d y s =
    (ks ← mapM (bp_contrib (vocab_size m) (hidden_dims m) (out_vocab_size m)
                           (W m) x d y s)
               (reverse (py_range (py_len x)));
     dW ← foldM madd (deltaW m) ks.*1.*1;
     dV ← foldM madd (deltaV m) ks.*1.*2;
     dU ← foldM madd (deltaU m) ks.*2;
     Some (mkRNN (vocab_size m) (hidden_dims m) (out_vocab_size m)
                 (U m) (V m) (W m) dU dV dW)) ∧
  (∀ U', acc_deltas (set_U m U') x d y s
           = (fun m' => set_U m' U') <$> acc_deltas m x d y s).
Proof.
  assert (Hsplit : ∀ m0 : RNN F, acc_deltas m0 x d y s =
    (ks ← mapM (bp_contrib (vocab_size m0) (hidden_dims m0) (out_vocab_size m0)
                           (W m0) x d y s)
               (reverse (py_range (py_len x)));
     dW ← foldM madd (deltaW m0) ks.*1.*1;
     dV ← foldM madd (deltaV m0) ks.*1.*2;
     dU ← foldM madd (deltaU m0) ks.*2;
     Some (mkRNN (vocab_size m0) (hidden_dims m0) (out_vocab_size m0)
                 (U m0) (V m0) (W m0) dU dV dW))).
  { intros m0. unfold acc_deltas.
    rewrite (foldM_mapM (same_params m0) _
               (bp_contrib (vocab_size m0) (hidden_dims m0) (out_vocab_size m0)
                           (W m0) x d y s) add_WVU).
    - destruct (mapM _ _) as [ks|]; simpl; [|done]. apply foldM_add_WVU.
    - intros a t (Hv & Hh & Ho & _ & _ & HW). rewrite acc_deltas_step_split.
      by rewrite Hv, Hh, Ho, HW.
    - intros a k a' Ha Hk. eapply same_params_trans; [done|].
      by eapply add_WVU_same_params.
    - by repeat split. }
  split; [|split].
  - apply py_range_reversed.
  - apply Hsplit.
  - intros U'. rewrite !Hsplit. simpl.
    destruct (mapM _ _) as [ks|]; simpl; [|done].
    by repeat (bind_case; [|done]).
Qed.
End StandardBackprop.

(** * The forward pass *)

Lemma py_store_nonneg {A} (l : list A) i v :
  0 <= i < py_len l → py_store l i v = Some (<[Z.to_nat i := v]> l).
Proof.
  intros [H1 H2]. unfold py_store.
  rewrite (proj2 (Z.leb_le _ _) H1). by rewrite (proj2 (Z.ltb_lt _ _) H2).
Qed.

Section ForwardShapes.
Context {F : Type} `{Arith F} `{Division F} `{Analytic F}.

Lemma sigmoid_length (v : list F) : length (sigmoid v) = length v.
Proof. unfold sigmoid. by rewrite length_map. Qed.

Lemma softmax_length (v : list F) : length (softmax v) = length v.
Proof. unfold softmax. by rewrite !length_map. Qed.

Lemma np_store_row_Some (a : list (list F)) (k : nat) (v : list F) r c :
  has_shape r c a → (k < r)%nat → length v = c →
  np_store_row a (Z.of_nat k) v = Some (<[k := v]> a).
Proof.
  intros [La Ha] Hk Lv. unfold np_store_row.
  destruct (lookup_lt_is_Some_2 a k) as [row Hrow]; [lia|].
  rewrite py_index_nonneg, Nat2Z.id, Hrow by lia. simpl.
  rewrite decide_True.
  - rewrite py_store_nonneg by (unfold py_len; lia). by rewrite Nat2Z.id.
  - rewrite Lv. apply (Forall_lookup_1 _ _ _ _ Ha Hrow).
Qed.

Lemma has_shape_insert (a : list (list F)) (k : nat) (v : list F) r c :
  has_shape r c a → length v = c → has_shape r c (<[k := v]> a).
Proof.
  intros [La Ha] Lv. split; [by rewrite length_insert|].
  by apply Forall_insert.
Qed.

(** One iteration of the loop of [predict] on well-shaped arrays: it
    returns, stores a hidden state in row [k] of [s] and a softmax in row
    [k] of [y], and touches no other row. *)
Lemma predict_step_ok (m : RNN F) x y s (k : nat) :
  wf_rnn m →
  Forall (fun a => 0 <= a < Z.of_nat (vocab_size m)) x →
  (k < length x)%nat →
  has_shape (length x) (out_vocab_size m) y →
  has_shape (length x + 1) (hidden_dims m) s →
  ∃ v p, predict_step m x (y, s) (Z.of_nat k)
           = Some (<[k := softmax p]> y, <[k := v]> s) ∧
         length v = hidden_dims m ∧ length p = out_vocab_size m.
Proof.
  intros Hm Hx Hk Hy Hs. unfold predict_step.
  destruct (lookup_lt_is_Some_2 x k Hk) as [xt Hxt].
  rewrite (py_index_nonneg x), Nat2Z.id, Hxt by lia. simpl.
  rewrite make_onehot_Some by apply (Forall_lookup_1 _ _ _ _ Hx Hxt). simpl.
  set (oh := <[Z.to_nat xt:=f1]> (np_zeros (vocab_size m))).
  assert (Loh : length oh = vocab_size m).
  { unfold oh, np_zeros. by rewrite length_insert, length_replicate. }
  destruct (wf_V m Hm) as [LV HV]. destruct (wf_U m Hm) as [LU HU].
  destruct (wf_W m Hm) as [LW HW].
  destruct (np_matvec_Some (V m) oh) as (a & Ha & La).
  { eapply Forall_impl; [exact HV|]. simpl. congruence. }
  rewrite Ha. simpl.
  destruct (py_index_is_Some s (Z.of_nat k - 1)) as [sp Hsp].
  { destruct Hs as [Ls _]. unfold py_len. lia. }
  rewrite Hsp. simpl.
  pose proof (has_shape_index _ _ _ _ _ Hs Hsp) as Lsp.
  destruct (np_matvec_Some (U m) sp) as (b & Hb & Lb).
  { eapply Forall_impl; [exact HU|]. simpl. congruence. }
  rewrite Hb. simpl.
  unfold vadd. rewrite vzip_Some by congruence. simpl.
  set (net_in := zip_with fadd a b).
  assert (Lnet : length net_in = hidden_dims m).
  { unfold net_in. rewrite length_zip_with. lia. }
  rewrite (np_store_row_Some s k _ _ _ Hs)
    by (rewrite ?sigmoid_length; first [lia | congruence]).
  simpl. rewrite py_index_nonneg, Nat2Z.id by lia.
  rewrite list_lookup_insert_eq by (destruct Hs; lia). simpl.
  destruct (np_matvec_Some (W m) (sigmoid net_in)) as (p & Hp & Lp).
  { eapply Forall_impl; [exact HW|]. simpl. intros row ->.
    by rewrite sigmoid_length. }
  rewrite Hp. simpl.
  rewrite (np_store_row_Some y k _ _ _ Hy)
    by (rewrite ?softmax_length; first [lia | congruence]).
  simpl. exists (sigmoid net_in), p.
  split; [done|]. split; [by rewrite sigmoid_length | congruence].
Qed.

Lemma predict_prefix (m : RNN F) x (k : nat) :
  wf_rnn m →
  Forall (fun a => 0 <= a < Z.of_nat (vocab_size m)) x →
  (k <= length x)%nat →
  ∃ ys, foldM (predict_step m x)
              (np_zeros2 (length x) (out_vocab_size m),
               np_zeros2 (length x + 1) (hidden_dims m))
              (py_range (Z.of_nat k)) = Some ys ∧
        predict_inv m x k ys.
Proof.
  intros Hm Hx. induction k as [|k IH]; intros Hk.
  - eexists. split; [done|]. repeat split; simpl.
    + apply np_zeros2_shape.
    + apply np_zeros2_shape.
    + apply np_zeros2_shape.
    + apply np_zeros2_shape.
    + unfold np_zeros2. apply lookup_replicate_2. lia.
    + intros i row Hi. lia.
  - destruct IH as ([y s] & Hfold & Hy & Hs & Hlast & Hrows); [lia|].
    simpl in *.
    destruct (predict_step_ok m x y s k) as (v & p & Hstep & Lv & Lp);
      try done.
    unfold py_range. rewrite seqZ_S, Z.add_0_l. fold (py_range (Z.of_nat k)).
    rewrite foldM_app, Hfold, bind_Some, foldM_singleton, Hstep.
    eexists. split; [done|]. repeat split; simpl.
    + by rewrite length_insert; destruct Hy.
    + apply Forall_insert; [by destruct Hy|]. by rewrite softmax_length.
    + by rewrite length_insert; destruct Hs.
    + apply Forall_insert; [by destruct Hs|done].
    + rewrite list_lookup_insert_ne by lia. done.
    + intros i row Hi Hrow. destruct (decide (i = k)) as [->|Hne].
      * rewrite list_lookup_insert_eq in Hrow by (destruct Hy; lia).
        exists p. by simplify_eq.
      * rewrite list_lookup_insert_ne in Hrow by done.
        apply (Hrows i row); [lia|done].
Qed.
End ForwardShapes.

Section ForwardReal.
Local Open Scope R_scope.





End ForwardReal.


Lemma demo_rnn_R_wf : wf_rnn demo_rnn_R.
Proof.
  split; simpl; try lia; (split; [reflexivity | by repeat constructor]).
Qed.


(** * The loss *)

Section ForwardTotal.
Context {F : Type} `{Arith F} `{Division F} `{Analytic F}.

(** [predict] returns on every valid sentence, with arrays of the shapes
    it allocates. *)
Lemma predict_ok (m : RNN F) x :
  wf_rnn m →
  Forall (fun a => 0 <= a < Z.of_nat (vocab_size m)) x →
  ∃ y s, predict m x = Some (y, s) ∧
         has_shape (length x) (out_vocab_size m) y ∧
         has_shape (length x + 1) (hidden_dims m) s.
Proof.
  intros Hm Hx.
  destruct (predict_prefix m x (length x) Hm Hx)
    as ([y s] & Hfold & Hy & Hs & _); [lia|].
  exists y, s. split; [exact Hfold|]. by split.
Qed.
End ForwardTotal.

Section Loss.
Context {F : Type} `{Arith F} `{Division F} `{Analytic F}.
(** The numbers on which the products and sums of [np.dot] with a one-hot
    vector are exact.  For doubles these are the finite numbers other than
    [-0.0]: [0 * a] is then a zero, and adding a zero leaves a number as it
    is.  An infinite [a] has [0 * a = nan]; this is the log of a probability
    that has underflowed to [0.0]. *)
Variable regular : F -> Prop.
Hypothesis regular_zero : regular f0.
Hypothesis fmul_one : ∀ a : F, fmul f1 a = a.
Hypothesis fadd_zero : ∀ a : F, regular a → fadd a f0 = a.
Hypothesis fadd_zero_mul :
  ∀ a b : F, regular a → regular b → fadd (fmul f0 a) b = b.





End Loss.

(** * The epoch loop *)

Section TrainingLemmas.
Context {F : Type} `{Arith F} `{Division F} `{Ordered F} {St : Type}.
Variable epoch_body : St -> F -> option St.
Variable dev_loss : St -> option F.
Variable dev_acc : option (St -> option F).
Variable save_params : St -> St.
Variable set_best_params : St -> St.
Variables a0 anneal min_change initial_loss : F.

Local Abbreviation step :=
  (epoch_step epoch_body dev_loss dev_acc save_params a0 anneal min_change).
Local Abbreviation small := (small_change min_change initial_loss).
Local Abbreviation plateau := (plateau_at min_change initial_loss).
Local Abbreviation train_inv :=
  (train_inv (St:=St) a0 anneal min_change initial_loss).
Local Abbreviation train_post :=
  (train_post a0 anneal min_change initial_loss).

Lemma loss_before_app (lg l' : list (Z * F * F)) i :
  (i <= length lg)%nat →
  loss_before initial_loss (lg ++ l') i = loss_before initial_loss lg i.
Proof.
  intros Hi. destruct i as [|j]; simpl; [done|].
  by rewrite lookup_app_l by lia.
Qed.

Lemma small_change_app (lg l' : list (Z * F * F)) i :
  (i < length lg)%nat → small (lg ++ l') i ↔ small lg i.
Proof.
  intros Hi. unfold small_change.
  rewrite lookup_app_l by lia. by rewrite loss_before_app by lia.
Qed.

Lemma small_change_last (lg : list (Z * F * F)) e :
  small (lg ++ [e]) (length lg) ↔
  fltb (fabs (fsub (loss_before initial_loss lg (length lg)) e.2)) min_change
    = true.
Proof.
  unfold small_change. rewrite list_lookup_middle by done.
  rewrite loss_before_app by lia. split.
  - by intros (e' & [= <-] & He).
  - intros He. by exists e.
Qed.

Lemma plateau_at_app (lg l' : list (Z * F * F)) k :
  (k < length lg)%nat → plateau (lg ++ l') k ↔ plateau lg k.
Proof.
  intros Hk. unfold plateau_at. by rewrite !small_change_app by lia.
Qed.

(** What one iteration does to the variables the stopping rule reads. *)
Lemma epoch_step_spec st e st' b :
  step st e = Some (st', b) →
  ∃ loss,
    epochs_log st'
      = epochs_log st ++ [(e, epoch_learning_rate a0 anneal e, loss)] ∧
    min_change_count st'
      = (if fltb (fabs (fsub (prev_loss st) loss)) min_change
         then min_change_count st + 1 else 0) ∧
    b = (2 <? min_change_count st') ∧
    (b = false → prev_loss st' = loss).
Proof.
  unfold epoch_step.
  destruct (epoch_body _ _) as [trained|]; simpl; [|done].
  destruct (dev_loss trained) as [loss|]; simpl; [|done].
  destruct (match dev_acc with Some f => Some <$> f trained | None => Some None
            end) as [acc|]; simpl; [|done].
  destruct (2 <? _) eqn:Eb; intros [= <- <-]; exists loss; simpl;
    by rewrite ?Eb.
Qed.

Lemma epoch_step_inv st (k : nat) st' b :
  train_inv st k → step st (Z.of_nat k) = Some (st', b) →
  length (epochs_log st') = S k ∧
  (b = true → ∀ N, (k < N)%nat → train_post N (epochs_log st')) ∧
  (b = false → train_inv st' (S k)).
Proof.
  intros (Hlen & Hlog & Hprev & Hzero & Hpos & Hnop) Hstep.
  apply epoch_step_spec in Hstep as (loss & Elog & Ecnt & Eb & Eprev).
  set (lg := epochs_log st) in *. set (cnt := min_change_count st) in *.
  set (entry := (Z.of_nat k, epoch_learning_rate a0 anneal (Z.of_nat k), loss))
    in *.
  assert (Hlen' : length (epochs_log st') = S k).
  { rewrite Elog, length_app. simpl. lia. }
  assert (Hlog' : ∀ i e, epochs_log st' !! i = Some e →
     e.1 = (Z.of_nat i, epoch_learning_rate a0 anneal (Z.of_nat i))).
  { intros i e. rewrite Elog. intros Hi.
    apply lookup_app_Some in Hi as [Hi|[Hge Hi]]; [by apply Hlog|].
    apply list_lookup_singleton_Some in Hi as [Hi <-].
    replace i with k by lia. done. }
  assert (Hsmall : small (epochs_log st') k ↔
    fltb (fabs (fsub (prev_loss st) loss)) min_change = true).
  { rewrite Elog, <- Hlen, small_change_last. simpl.
    fold lg. by rewrite Hlen, <- Hprev. }
  assert (Hold : ∀ i, (i < k)%nat → small (epochs_log st') i ↔ small lg i).
  { intros i Hi. rewrite Elog. apply small_change_app. lia. }
  assert (Hnop' : ∀ j, (j < k)%nat → ¬ plateau (epochs_log st') j).
  { intros j Hj. rewrite Elog, plateau_at_app by lia. by apply Hnop. }
  split; [done|]. split.
  - (* the loop is left: the counter has passed 2 *)
    intros -> N HN. symmetry in Eb. apply Z.ltb_lt in Eb.
    destruct (fltb (fabs (fsub (prev_loss st) loss)) min_change) eqn:Es;
      [|lia].
    assert (Hk : (0 < k)%nat).
    { destruct k; [|lia]. rewrite Hzero in Ecnt by done. lia. }
    destruct (Hpos Hk) as (Hc & Hck & Hrun & Hstop).
    assert (cnt = 2) by lia.
    split; [lia|]. split; [done|]. split.
    + intros _. rewrite Hlen'. replace (S k - 1)%nat with k by lia.
      split; [lia|]. split; [by apply Hsmall|].
      split; (apply Hold; [lia|]); apply Hrun; lia.
    + intros j Hj. apply Hnop'. lia.
  - (* the loop goes on *)
    intros ->. symmetry in Eb. apply Z.ltb_ge in Eb.
    split; [done|]. split; [done|]. split.
    { rewrite Eprev by done. rewrite Elog. simpl.
      by rewrite <- Hlen, list_lookup_middle. }
    split; [lia|]. split.
    + intros _.
      destruct (fltb (fabs (fsub (prev_loss st) loss)) min_change) eqn:Es.
      * (* a small change: the counter goes up by one *)
        destruct k as [|k'].
        { rewrite Hzero in Ecnt by done.
          split; [lia|]. split; [lia|]. split; [intros i; lia|].
          intros i Hi. left. lia. }
        destruct (Hpos ltac:(lia)) as (Hc & Hck & Hrun & Hstop).
        split; [lia|]. split; [lia|]. split.
        -- intros i Hi. destruct (decide (i = S k')) as [->|Hne].
           ++ split; [lia|]. apply Hsmall. done.
           ++ destruct (Hrun i ltac:(lia)) as [Hi1 Hsi].
              split; [done|]. apply Hold; [lia|done].
        -- intros i Hi. destruct (Hstop i ltac:(lia)) as [->|Hns];
             [by left|right].
           intros Hs. apply Hns. apply Hold; [lia|done].
      * (* no small change: the counter is reset *)
        split; [lia|]. split; [lia|]. split; [intros i; lia|].
        intros i Hi. right. replace i with k by lia.
        rewrite Hsmall. congruence.
    + intros j Hj [Hj3 (Hs0 & Hs1 & Hs2)].
      destruct (decide (j = k)) as [->|Hne]; [|apply (Hnop' j); [lia|done]].
      apply Hsmall in Hs0. rewrite Hs0 in Ecnt.
      destruct (Hpos ltac:(lia)) as (Hc & Hck & Hrun & Hstop).
      assert (Hi : ∃ i : nat, Z.of_nat i = Z.of_nat k - 1 - cnt)
        by (exists (Z.to_nat (Z.of_nat k - 1 - cnt)); lia).
      destruct Hi as [i Hi]. destruct (Hstop i Hi) as [->|Hns]; [lia|].
      apply Hns. apply Hold; [lia|].
      assert (i = (k - 1)%nat ∨ i = (k - 2)%nat) as [->| ->] by lia; done.
Qed.

(** The loop from a state that satisfies the invariant. *)
Lemma for_break_post (n' k : nat) st r :
  train_inv st k →
  for_break step st (seqZ (Z.of_nat k) (Z.of_nat n')) = Some r →
  train_post (k + n') (epochs_log r).
Proof.
  revert k st. induction n' as [|n' IH]; intros k st Hinv.
  - simpl. intros [= <-].
    destruct Hinv as (Hlen & Hlog & _ & _ & _ & Hnop).
    split; [lia|]. split; [done|]. split; [lia|].
    intros j Hj. apply Hnop. lia.
  - rewrite seqZ_cons by lia. simpl.
    destruct (step st (Z.of_nat k)) as [[st' b]|] eqn:E; simpl; [|done].
    destruct (epoch_step_inv _ _ _ _ Hinv E) as (Hl & Hb & Hnb).
    destruct b; simpl.
    + intros [= <-]. apply Hb; [done|lia].
    + replace (Z.succ (Z.of_nat k)) with (Z.of_nat (S k)) by lia.
      replace (Z.pred (Z.of_nat (S n'))) with (Z.of_nat n') by lia.
      intros Hr. replace (k + S n')%nat with (S k + n')%nat by lia.
      apply (IH (S k) st'); auto.
Qed.

(** The whole driver. *)
Lemma train_driver_post m epochs r :
  dev_loss m = Some initial_loss →
  train_driver epoch_body dev_loss dev_acc save_params set_best_params
               m epochs a0 anneal min_change = Some r →
  train_post (Z.to_nat epochs) (epochs_log r).
Proof.
  intros Hinit. unfold train_driver. rewrite Hinit, bind_Some.
  destruct (match dev_acc with Some f => Some <$> f m | None => Some None end)
    as [acc0|]; simpl; [|done].
  replace (py_range epochs)
    with (seqZ (Z.of_nat 0) (Z.of_nat (Z.to_nat epochs))).
  2:{ unfold py_range. destruct (decide (0 <= epochs)).
      - by rewrite Z2Nat.id.
      - rewrite (seqZ_nil 0 epochs) by lia.
        replace (Z.to_nat epochs) with 0%nat by lia. done. }
  destruct (for_break _ _ _) as [st|] eqn:Eloop; simpl; [|done].
  destruct (match dev_acc with Some _ => best_acc st | None => Some f0 end);
    simpl; [|done].
  intros [= <-]. simpl.
  eapply (for_break_post (Z.to_nat epochs) 0); [|exact Eloop].
  split; [done|]. split; [by intros i e|]. split; [done|].
  split; [done|]. split; [lia|]. intros j Hj. lia.
Qed.

Local Abbreviation run := (epochs_run epoch_body dev_loss save_params).

(** One more epoch at the end of a replayed log. *)
Lemma epochs_run_snoc m best lg m1 best1 e trained :
  run m best lg (m1, best1) →
  epoch_body m1 e.1.2 = Some trained → dev_loss trained = Some e.2 →
  run m best (lg ++ [e])
      (if fltb e.2 best1 then save_params trained else trained,
       if fltb e.2 best1 then e.2 else best1).
Proof.
  intros Hrun Hbody Hloss. revert m best Hrun.
  induction lg as [|e' lg IH]; intros m best; simpl.
  - intros [= <- <-]. by exists trained.
  - intros (tr & Hb & Hl & Hrest). exists tr. split_and!; [done..|].
    by apply IH.
Qed.

(** An iteration trains the model with the rate it logs. *)
Lemma epoch_step_run m best st e r :
  run m best (epochs_log st) (model st, best_loss st) →
  step st e = Some r →
  run m best (epochs_log r.1) (model r.1, best_loss r.1).
Proof.
  intros Hrun. unfold epoch_step.
  destruct (epoch_body _ _) as [trained|] eqn:Ebody; simpl; [|done].
  destruct (dev_loss trained) as [loss|] eqn:Eloss; simpl; [|done].
  destruct (match dev_acc with Some f => Some <$> f trained | None => Some None
            end) as [acc|]; simpl; [|done].
  destruct (2 <? _); intros [= <-]; simpl;
    by apply (epochs_run_snoc m best (epochs_log st) (model st) (best_loss st)
                (e, epoch_learning_rate a0 anneal e, loss) trained).
Qed.

(** The model that the driver returns is the one the replay of its log
    ends with, after [set_best_params]. *)
Lemma train_driver_run m epochs r :
  dev_loss m = Some initial_loss →
  train_driver epoch_body dev_loss dev_acc save_params set_best_params
               m epochs a0 anneal min_change = Some r →
  ∃ trained_model,
    run (save_params m) initial_loss (epochs_log r)
        (trained_model, best_loss r) ∧
    model r = set_best_params trained_model.
Proof.
  intros Hinit. unfold train_driver. rewrite Hinit, bind_Some.
  destruct (match dev_acc with Some f => Some <$> f m | None => Some None end)
    as [acc0|]; simpl; [|done].
  destruct (for_break _ _ _) as [st|] eqn:Eloop; simpl; [|done].
  destruct (match dev_acc with Some _ => best_acc st | None => Some f0 end);
    simpl; [|done].
  intros [= <-]. simpl. exists (model st). split; [|done].
  revert Eloop.
  apply (for_break_invariant (fun st =>
    run (save_params m) initial_loss (epochs_log st)
        (model st, best_loss st))); [|done].
  intros st1 e r1 Hrun Hstep. by eapply epoch_step_run.
Qed.
End TrainingLemmas.


Section TrainingTheorems.
Context {F : Type} `{Arith F} `{Division F} `{Ordered F} {St : Type}.


(** C8. In [train] and [train_np] the learning rate used in the zero-based
    epoch [epoch] is [a0 / ((epoch + anneal) / anneal)] when [anneal > 0],
    and [a0] when [anneal] is 0, [a0] being the [learning_rate] argument;
    the code adds [0.0] to [epoch] first, which leaves a number as it is.
    The rate logged for an epoch is the rate its training pass was run
    with: the model returned is the one obtained by training, epoch after
    epoch, with the logged rates. *)
Theorem train_learning_rate_schedule
    (epoch_body : St -> F -> option St) (dev_loss dev_acc : St -> option F)
    (save_params set_best_params : St -> St)
    (m : St) (epochs : Z) (a0 anneal min_change : F)
    (r : train_state St F) :
  (∀ z, fadd (of_int z) f0 = of_int z) →
  fltb f0 f0 = false →
  train epoch_body dev_loss save_params set_best_params
        m epochs a0 anneal min_change = Some r ∨
  train_np epoch_body dev_loss dev_acc save_params set_best_params
           m epochs a0 anneal min_change = Some r →
  ∃ initial_loss trained_model,
    dev_loss m = Some initial_loss ∧
    epochs_run epoch_body dev_loss save_params (save_params m) initial_loss
               (epochs_log r) (trained_model, best_loss r) ∧
    model r = set_best_params trained_model ∧
    ∀ i epoch rate loss, epochs_log r !! i = Some (epoch, rate, loss) →
      epoch = Z.of_nat i ∧
      (fltb f0 anneal = true →
         rate = fdiv a0 (fdiv (fadd (of_int epoch) anneal) anneal)) ∧
      (anneal = f0 → rate = a0).
Proof.
  intros Hzero Hirr Hr.
  assert (∃ acc, train_driver epoch_body dev_loss acc save_params
            set_best_params m epochs a0 anneal min_change = Some r)
    as [acc Hacc] by (destruct Hr; eauto).
  destruct (dev_loss m) as [initial_loss|] eqn:Einit.
  2:{ unfold train_driver in Hacc. by rewrite Einit in Hacc. }
  destruct (train_driver_run _ _ _ _ _ _ _ _ _ _ _ _ Einit Hacc)
    as (trained_model & Hrun & Hmodel).
  exists initial_loss, trained_model. split_and!; [done..|].
  intros i epoch rate loss Hi.
  destruct (train_driver_post _ _ _ _ _ _ _ _ _ _ _ _ Einit Hacc)
    as (_ & Hlog & _).
  specialize (Hlog i _ Hi). simpl in Hlog. injection Hlog as -> ->.
  split; [done|]. unfold epoch_learning_rate. split.
  - intros ->. by rewrite Hzero.
  - intros ->. by rewrite Hirr.
Qed.
End TrainingTheorems.

(** * The methods on the small model *)

Lemma vsum_app (a b : list R) : vsum (a ++ b) = (vsum a + vsum b)%R.
Proof. induction a as [|r a IH]; simpl; [lra | rewrite IH; lra]. Qed.

(** On the reals the loss accumulated by the loop is minus the sum of the
    logs. *)
Lemma nll_sum (y : list (list R)) (d : list Z) (n : nat) :
  nll y d n
    = (- vsum (map (fun t => log_entry y t (default 0%Z (d !! t)))
                   (seq 0 n)))%R.
Proof.
  unfold nll. induction n as [|n IH].
  - simpl. lra.
  - rewrite seq_S, foldl_app, map_app, vsum_app, IH. simpl. lra.
Qed.






(** Adding [0.0] to a converted integer, on the rationals. *)
Lemma Q_add_zero (z : Z) : fadd (of_int z) f0 = (of_int z : Q).
Proof.
  simpl. rewrite (Qred_complete (inject_Z z + 0) (inject_Z z)) by ring.
  unfold Qred, inject_Z.
  pose proof (Z.ggcd_gcd z 1) as Hg.
  pose proof (Z.ggcd_correct_divisors z 1) as Hd.
  destruct (Z.ggcd z 1) as (g, (aa, bb)). simpl in *.
  rewrite Z.gcd_1_r in Hg. subst g. destruct Hd as [Ha Hb].
  rewrite Z.mul_1_l in Ha, Hb. by subst.
Qed.


(** C8 on a run whose model keeps the rates it was trained with, with
    [a0 = 1/2] and [anneal = 5]: epoch 1 is logged with the rate
    [(1/2) / ((1 + 5) / 5) = 5/12], and the model returned was trained with
    the rates 1/2, 5/12, 5/14 and 5/16. *)
Lemma train_learning_rate_schedule_witness :
  ∃ r rate loss,
    demo_rates_train = Some r ∧
    epochs_log r !! 1%nat = Some (1, rate, loss) ∧ rate = (5 # 12)%Q ∧
    model r = [1 # 2; 5 # 12; 5 # 14; 5 # 16]%Q.
Proof.
  destruct demo_rates_train as [r|] eqn:E; [|by vm_compute in E].
  destruct (train_learning_rate_schedule
              _ _ demo_rates_loss _ _ _ _ _ _ _ r Q_add_zero eq_refl
              (or_introl E)) as (init & mt & Hinit & Hrun & Hmodel & Hrate).
  vm_compute in Hinit. injection Hinit as <-.
  vm_compute in E. injection E as <-.
  eexists _, _, _. split; [reflexivity|]. split; [reflexivity|].
  destruct (Hrate 1%nat _ _ _ eq_refl) as (_ & Hr & _).
  rewrite Hr by done. split; [by vm_compute|].
  simpl in Hrun.
  destruct Hrun as (t0 & [= <-] & _ & t1 & [= <-] & _ & t2 & [= <-] & _
                    & t3 & [= <-] & _ & [= ->]).
  exact Hmodel.
Defined.

(** * Further properties of the gradient methods *)

Lemma foldM_total {A B} (P : A -> Prop) (f : A -> B -> option A) l a :
  (∀ a b, P a → b ∈ l → ∃ a', f a b = Some a' ∧ P a') →
  P a → ∃ a', foldM f a l = Some a' ∧ P a'.
Proof.
  revert a. induction l as [|b l IH]; intros a Hf Ha; simpl; [by eauto|].
  destruct (Hf a b Ha) as (a1 & E & Ha1); [by left|]. rewrite E. simpl.
  apply IH; [|done]. intros a2 b2 Ha2 Hb2. apply Hf; [done|by right].
Qed.

Lemma foldM_agree {A B} (P : A -> Prop) (f g : A -> B -> option A) l a :
  (∀ a b, P a → b ∈ l → f a b = g a b) →
  (∀ a b a', P a → b ∈ l → g a b = Some a' → P a') →
  P a → foldM f a l = foldM g a l.
Proof.
  revert a. induction l as [|b l IH]; intros a Hfg Hg Ha; simpl; [done|].
  rewrite Hfg by (done || by left).
  destruct (g a b) as [a1|] eqn:E; simpl; [|done].
  apply IH.
  - intros a2 b2 Ha2 Hb2. apply Hfg; [done|by right].
  - intros a2 b2 a3 Ha2 Hb2. apply Hg; [done|by right].
  - eapply Hg; [exact Ha|by left|exact E].
Qed.

Section BackpropTotal.
Context {F : Type} `{Arith F}.
Implicit Types (m : RNN F) (x d : list Z) (y s : list (list F)).

Lemma same_params_sym m m' : same_params m m' → same_params m' m.
Proof. unfold same_params. intuition congruence. Qed.

(** The output error. *)
Lemma delta_out_ok (dt : Z) (out : nat) (yt : list F) :
  0 <= dt < Z.of_nat out → length yt = out →
  ∃ oh delta_out, make_onehot dt out = Some oh ∧
    vsub oh yt = Some delta_out ∧ length delta_out = out.
Proof.
  intros Hdt Lyt. rewrite make_onehot_Some by done.
  eexists _, _. split; [done|].
  assert (L : length (<[Z.to_nat dt:=f1]> (np_zeros out : list F)) = out).
  { unfold np_zeros. by rewrite length_insert, length_replicate. }
  unfold vsub. rewrite vzip_Some by congruence. split; [done|].
  rewrite length_zip_with. lia.
Qed.

(** An error sent back through a matrix with [r] rows and [c] columns
    and scaled by the sigmoid gradient at a hidden state. *)
Lemma backward_ok (r c : nat) (M : list (list F)) (delta st : list F) :
  has_shape r c M → length delta = r → length st = c →
  ∃ back delta_in, np_matvec (np_transpose c M) delta = Some back ∧
    vmul back (grad st) = Some delta_in ∧ length delta_in = c.
Proof.
  intros [LM _] Ld Lst.
  destruct (np_transpose_shape c M) as [LT HT].
  destruct (np_matvec_Some (np_transpose c M) delta) as (back & Hb & Lb).
  { eapply Forall_impl; [exact HT|]. simpl. congruence. }
  exists back. eexists. split; [done|].
  unfold vmul. rewrite vzip_Some by (rewrite grad_length; congruence).
  split; [done|]. rewrite length_zip_with, grad_length. lia.
Qed.

Lemma madd_outer_ok (r c : nat) (A : list (list F)) (a b : list F) :
  has_shape r c A → length a = r → length b = c →
  ∃ C, madd A (np_outer a b) = Some C ∧ has_shape r c C.
Proof.
  intros HA La Lb. apply madd_Some; [done|].
  rewrite <- La, <- Lb. apply np_outer_shape.
Qed.

Lemma make_onehot_ok (i : Z) (size : nat) :
  0 <= i < Z.of_nat size →
  ∃ oh : list F, make_onehot i size = Some oh ∧ length oh = size.
Proof.
  intros Hi. rewrite make_onehot_Some by done. eexists. split; [done|].
  unfold np_zeros. by rewrite length_insert, length_replicate.
Qed.

Lemma wf_set_deltaW m a :
  wf_rnn m → has_shape (out_vocab_size m) (hidden_dims m) a →
  wf_rnn (set_deltaW m a).
Proof. intros [] Ha. by split. Qed.

Lemma wf_set_deltaV m a :
  wf_rnn m → has_shape (hidden_dims m) (vocab_size m) a →
  wf_rnn (set_deltaV m a).
Proof. intros [] Ha. by split. Qed.

Lemma wf_set_deltaU m a :
  wf_rnn m → has_shape (hidden_dims m) (hidden_dims m) a →
  wf_rnn (set_deltaU m a).
Proof. intros [] Ha. by split. Qed.

Lemma wf_traces_params m m' x y s :
  same_params m m' → wf_traces m x y s → wf_traces m' x y s.
Proof. intros (_ & Hh & Ho & _) [Hy Hs]. split; congruence. Qed.

Lemma trace_row_y m x y s (t : Z) :
  wf_traces m x y s → 0 <= t < py_len x →
  ∃ yt, py_index y t = Some yt ∧ length yt = out_vocab_size m.
Proof.
  intros [Hy _] Ht. destruct (py_index_is_Some y t) as [yt Hyt].
  { destruct Hy as [Ly _]. unfold py_len in *. lia. }
  exists yt. split; [done|]. by eapply has_shape_index.
Qed.

Lemma trace_row_s m x y s (t : Z) :
  wf_traces m x y s → - py_len x - 1 <= t <= py_len x →
  ∃ st, py_index s t = Some st ∧ length st = hidden_dims m.
Proof.
  intros [_ Hs] Ht. destruct (py_index_is_Some s t) as [st Hst].
  { destruct Hs as [Ls _]. unfold py_len in *. lia. }
  exists st. split; [done|]. by eapply has_shape_index.
Qed.

Lemma word_ok m x (t : Z) :
  valid_words m x → - py_len x <= t < py_len x →
  ∃ xt, py_index x t = Some xt ∧ 0 <= xt < Z.of_nat (vocab_size m).
Proof.
  intros Hx Ht. destruct (py_index_is_Some x t Ht) as [xt Hxt].
  exists xt. split; [done|]. apply py_index_elem in Hxt.
  by apply (proj1 (Forall_forall _ _) Hx).
Qed.

Lemma label_ok m x d (t : Z) :
  valid_labels m x d → 0 <= t < py_len x →
  ∃ dt, py_index d t = Some dt ∧ 0 <= dt < Z.of_nat (out_vocab_size m).
Proof.
  intros [Ld Hd] Ht. destruct (py_index_is_Some d t) as [dt Hdt].
  { unfold py_len in *. lia. }
  exists dt. split; [done|]. apply py_index_elem in Hdt.
  by apply (proj1 (Forall_forall _ _) Hd).
Qed.
End BackpropTotal.

Section BackpropReturns.
Context {F : Type} `{Arith F}.
Implicit Types (m : RNN F) (x d : list Z) (y s : list (list F)).

Lemma np_outer_has_shape (a b : list F) (r c : nat) :
  length a = r → length b = c → has_shape r c (np_outer a b).
Proof. intros <- <-. apply np_outer_shape. Qed.

Lemma bp_contrib_ok m x d y s (t : Z) :
  wf_rnn m → wf_traces m x y s → valid_words m x → valid_labels m x d →
  0 <= t < py_len x →
  ∃ k, bp_contrib (vocab_size m) (hidden_dims m) (out_vocab_size m) (W m)
                  x d y s t = Some k ∧
       has_shape (out_vocab_size m) (hidden_dims m) k.1.1 ∧
       has_shape (hidden_dims m) (vocab_size m) k.1.2 ∧
       has_shape (hidden_dims m) (hidden_dims m) k.2.
Proof.
  intros Hm Htr Hx Hd Ht. unfold bp_contrib.
  destruct (label_ok m x d t Hd Ht) as (dt & Hdt' & Hdt).
  destruct (trace_row_y m x y s t Htr Ht) as (yt & Hyt & Lyt).
  destruct (delta_out_ok dt _ yt Hdt Lyt) as (oh & dout & Hoh & Hsub & Ldo).
  destruct (trace_row_s m x y s t Htr) as (st & Hst & Lst); [lia|].
  destruct (backward_ok _ _ (W m) dout st (wf_W m Hm) Ldo Lst)
    as (back & din & Hback & Hdin & Ldin).
  destruct (word_ok m x t Hx) as (xt & Hxt & Hxr); [lia|].
  destruct (make_onehot_ok xt (vocab_size m) Hxr) as (ohx & Hohx & Lohx).
  destruct (trace_row_s m x y s (t - 1) Htr) as (sp & Hsp & Lsp); [lia|].
  rewrite Hdt', bind_Some, Hoh, bind_Some, Hyt, bind_Some, Hsub, bind_Some.
  rewrite Hst, bind_Some, Hback, bind_Some, Hdin, bind_Some.
  rewrite Hxt, bind_Some, Hohx, bind_Some, Hsp, bind_Some.
  eexists. split; [done|]. simpl.
  split; [|split]; by apply np_outer_has_shape.
Qed.

Lemma add_WVU_ok m k :
  wf_rnn m →
  has_shape (out_vocab_size m) (hidden_dims m) k.1.1 →
  has_shape (hidden_dims m) (vocab_size m) k.1.2 →
  has_shape (hidden_dims m) (hidden_dims m) k.2 →
  ∃ m', add_WVU m k = Some m' ∧ wf_rnn m' ∧ same_params m m'.
Proof.
  intros Hm HW HV HU. unfold add_WVU.
  destruct (madd_Some _ _ _ _ (wf_deltaW m Hm) HW) as (dW & -> & SW).
  destruct (madd_Some _ _ _ _ (wf_deltaV m Hm) HV) as (dV & -> & SV).
  destruct (madd_Some _ _ _ _ (wf_deltaU m Hm) HU) as (dU & -> & SU).
  simpl. eexists. split; [done|]. split; [|by repeat split].
  apply wf_set_deltaU; [|done]. apply wf_set_deltaV; [|done].
  by apply wf_set_deltaW.
Qed.

Lemma add_VU_ok m (k : list (list F) * list (list F)) :
  wf_rnn m →
  has_shape (hidden_dims m) (vocab_size m) k.1 →
  has_shape (hidden_dims m) (hidden_dims m) k.2 →
  ∃ m', add_VU m k = Some m' ∧ wf_rnn m' ∧ same_params m m'.
Proof.
  intros Hm HV HU. unfold add_VU.
  destruct (madd_Some _ _ _ _ (wf_deltaV m Hm) HV) as (dV & -> & SV).
  destruct (madd_Some _ _ _ _ (wf_deltaU m Hm) HU) as (dU & -> & SU).
  simpl. eexists. split; [done|]. split; [|by repeat split].
  apply wf_set_deltaU; [|done]. by apply wf_set_deltaV.
Qed.

Lemma wf_rnn_params_traces m0 m x y s :
  same_params m0 m → wf_traces m0 x y s → wf_traces m x y s.
Proof. apply wf_traces_params. Qed.

Lemma valid_words_params m0 m x :
  same_params m0 m → valid_words m0 x → valid_words m x.
Proof. intros (Hv & _). unfold valid_words. by rewrite Hv. Qed.

Lemma valid_labels_params m0 m x d :
  same_params m0 m → valid_labels m0 x d → valid_labels m x d.
Proof. intros (_ & _ & Ho & _). unfold valid_labels. by rewrite Ho. Qed.

(** One timestep of [acc_deltas] on well-shaped data. *)
Lemma acc_deltas_step_ok m0 m x d y s (t : Z) :
  wf_rnn m → same_params m0 m →
  wf_traces m0 x y s → valid_words m0 x → valid_labels m0 x d →
  0 <= t < py_len x →
  ∃ m', acc_deltas_step x d y s m t = Some m' ∧
        wf_rnn m' ∧ same_params m0 m'.
Proof.
  intros Hm Hp Htr Hx Hd Ht. rewrite acc_deltas_step_split.
  destruct (bp_contrib_ok m x d y s t) as (k & -> & SW & SV & SU);
    eauto using wf_traces_params, valid_words_params, valid_labels_params.
  simpl. destruct (add_WVU_ok m k) as (m' & -> & Hm' & Hp'); try done.
  exists m'. split; [done|]. split; [done|].
  by eapply same_params_trans.
Qed.

Lemma acc_deltas_ok m x d y s :
  wf_rnn m → wf_traces m x y s → valid_words m x → valid_labels m x d →
  ∃ m', acc_deltas m x d y s = Some m' ∧ wf_rnn m' ∧ same_params m m'.
Proof.
  intros Hm Htr Hx Hd. unfold acc_deltas.
  apply (foldM_total (fun a => wf_rnn a ∧ same_params m a)).
  - intros a t [Ha Hp] Ht%elem_of_reverse%elem_of_py_range.
    by apply (acc_deltas_step_ok m a).
  - split; [done|]. by repeat split.
Qed.

(** X1. On a model with the shapes of [__init__], traces of the shapes
    [predict] returns, valid words and valid labels, [acc_deltas] returns;
    the model it leaves has the same dimensions and weights [U], [V], [W],
    and accumulators of the shapes of their matrices. *)
Theorem acc_deltas_returns m x d y s :
  wf_rnn m → wf_traces m x y s → valid_words m x → valid_labels m x d →
  ∃ m', acc_deltas m x d y s = Some m' ∧ wf_rnn m' ∧ same_params m m'.
Proof. apply acc_deltas_ok. Qed.

Lemma valid_label_index m d :
  valid_label m d →
  ∃ lbl : Z,
    py_index d 0 = Some lbl ∧ 0 <= lbl < Z.of_nat (out_vocab_size m).
Proof. intros (lbl & Hd & Hr). exists lbl. by rewrite py_index_nonneg. Qed.

Lemma acc_deltas_np_ok m x d y s :
  wf_rnn m → wf_traces m x y s → valid_words m x → valid_label m d →
  x ≠ [] →
  ∃ m', acc_deltas_np m x d y s = Some m' ∧ wf_rnn m' ∧ same_params m m'.
Proof.
  intros Hm Htr Hx Hd Hne. unfold acc_deltas_np.
  assert (Ht : 0 <= py_len x - 1 < py_len x).
  { destruct x; [done|]. unfold py_len. simpl. lia. }
  set (t := py_len x - 1) in *.
  destruct (valid_label_index m d Hd) as (d0 & Hd0 & Hr).
  destruct (trace_row_y m x y s t Htr Ht) as (yt & Hyt & Lyt).
  destruct (delta_out_ok d0 _ yt Hr Lyt) as (oh & dout & Hoh & Hsub & Ldo).
  destruct (trace_row_s m x y s t Htr) as (st & Hst & Lst); [lia|].
  destruct (backward_ok _ _ (W m) dout st (wf_W m Hm) Ldo Lst)
    as (back & din & Hback & Hdin & Ldin).
  destruct (word_ok m x t Hx) as (xt & Hxt & Hxr); [lia|].
  destruct (make_onehot_ok xt (vocab_size m) Hxr) as (ohx & Hohx & Lohx).
  destruct (trace_row_s m x y s (t - 1) Htr) as (sp & Hsp & Lsp); [lia|].
  rewrite Hd0, bind_Some, Hoh, bind_Some, Hyt, bind_Some, Hsub, bind_Some.
  rewrite Hst, bind_Some. simpl.
  rewrite Hback, bind_Some, Hdin, bind_Some.
  rewrite Hxt, bind_Some, Hohx, bind_Some, Hsp, bind_Some.
  eexists. split; [done|]. split; [|by repeat split].
  apply wf_set_deltaU; [|by apply np_outer_has_shape].
  apply wf_set_deltaV; [|by apply np_outer_has_shape].
  apply wf_set_deltaW; [done|by apply np_outer_has_shape].
Qed.

(** X2. On well-shaped data with a non-empty sentence and a valid label,
    [acc_deltas_np] returns; the model it leaves has the same dimensions
    and weights, and its three accumulators, although assigned afresh,
    have the shapes of their matrices. *)
Theorem acc_deltas_np_returns m x d y s :
  wf_rnn m → wf_traces m x y s → valid_words m x → valid_label m d →
  x ≠ [] →
  ∃ m', acc_deltas_np m x d y s = Some m' ∧ wf_rnn m' ∧ same_params m m'.
Proof. apply acc_deltas_np_ok. Qed.

(** One iteration of the inner BPTT loop whose reads stay inside the
    arrays, negative indices included. *)
Lemma bptt_inner_contrib_ok m x y s (t t_ : Z) (c : list F) :
  wf_rnn m → wf_traces m x y s → valid_words m x →
  0 <= t < py_len x → 0 <= t_ <= t + py_len x →
  length c = hidden_dims m →
  ∃ k c', bptt_inner_contrib m x s t c t_ = Some (k, c') ∧
    has_shape (hidden_dims m) (vocab_size m) k.1 ∧
    has_shape (hidden_dims m) (hidden_dims m) k.2 ∧
    length c' = hidden_dims m.
Proof.
  intros Hm Htr Hx Ht Ht_ Lc. unfold bptt_inner_contrib.
  destruct (word_ok m x (t - t_) Hx) as (xi & Hxi & Hxr); [lia|].
  destruct (make_onehot_ok xi (vocab_size m) Hxr) as (ohx & Hohx & Lohx).
  destruct (trace_row_s m x y s (t - t_) Htr) as (sti & Hsti & Lsti); [lia|].
  destruct (backward_ok _ _ (U m) c sti (wf_U m Hm) Lc Lsti)
    as (back & dT & Hback & HdT & LdT).
  destruct (trace_row_s m x y s (t - 1) Htr) as (sp & Hsp & Lsp); [lia|].
  destruct (trace_row_s m x y s (t - t_ - 1) Htr) as (sq & Hsq & Lsq); [lia|].
  rewrite Hxi, bind_Some, Hohx, bind_Some, Hback, bind_Some.
  rewrite Hsti, bind_Some, HdT, bind_Some.
  case_bool_decide.
  - rewrite Hsp, bind_Some. eexists _, _. split; [done|]. simpl.
    split; [|split]; [by apply np_outer_has_shape..|done].
  - rewrite Hsq, bind_Some. eexists _, _. split; [done|]. simpl.
    split; [|split]; [by apply np_outer_has_shape..|done].
Qed.

Lemma bptt_inner_ok m0 m x y s (t t_ : Z) (c : list F) :
  wf_rnn m → same_params m0 m →
  wf_traces m0 x y s → valid_words m0 x →
  0 <= t < py_len x → 0 <= t_ <= t + py_len x →
  length c = hidden_dims m0 →
  ∃ m' c', bptt_inner x s t (m, c) t_ = Some (m', c') ∧
    wf_rnn m' ∧ same_params m0 m' ∧ length c' = hidden_dims m0.
Proof.
  intros Hm Hp Htr Hx Ht Ht_ Lc. pose proof Hp as (_ & Hh & _).
  rewrite bptt_inner_split.
  destruct (bptt_inner_contrib_ok m x y s t t_ c)
    as (k & c' & -> & SV & SU & Lc');
    eauto using wf_traces_params, valid_words_params; [congruence|].
  rewrite bind_Some. simpl.
  destruct (add_VU_ok m k) as (m' & -> & Hm' & Hp'); try done.
  rewrite bind_Some. exists m', c'. split; [done|]. split; [done|].
  split; [by eapply same_params_trans | congruence].
Qed.

(** The inner loop over indices that stay inside the arrays. *)
Lemma bptt_inner_loop_ok m0 m x y s (t : Z) (c : list F) (l : list Z) :
  wf_rnn m → same_params m0 m →
  wf_traces m0 x y s → valid_words m0 x →
  0 <= t < py_len x → Forall (fun t_ => 0 <= t_ <= t + py_len x) l →
  length c = hidden_dims m0 →
  ∃ m' c', foldM (bptt_inner x s t) (m, c) l = Some (m', c') ∧
    wf_rnn m' ∧ same_params m0 m'.
Proof.
  intros Hm Hp Htr Hx Ht Hl Lc.
  destruct (foldM_total
    (fun st : RNN F * list F =>
       wf_rnn st.1 ∧ same_params m0 st.1 ∧ length st.2 = hidden_dims m0)
    (bptt_inner x s t) l (m, c)) as ([m' c'] & E & Hm' & Hp' & _).
  - intros [a ca] t_ (Ha & Hpa & Lca) Hin. simpl in *.
    destruct (bptt_inner_ok m0 a x y s t t_ ca)
      as (a' & ca' & E & Ha' & Hpa' & Lca'); try done.
    { by apply (proj1 (Forall_forall _ _) Hl). }
    by exists (a', ca').
  - done.
  - by exists m', c'.
Qed.

(** The part of a BPTT timestep before the inner loop. *)
Lemma bptt_head_ok m0 m x d y s (t d0 : Z) :
  wf_rnn m → same_params m0 m → wf_traces m0 x y s →
  0 <= d0 < Z.of_nat (out_vocab_size m0) → 0 <= t < py_len x →
  ∃ oh yt dout st dW back din,
    make_onehot d0 (out_vocab_size m) = Some oh ∧
    py_index y t = Some yt ∧ vsub oh yt = Some dout ∧
    py_index s t = Some st ∧
    madd (deltaW m) (np_outer dout st) = Some dW ∧
    has_shape (out_vocab_size m) (hidden_dims m) dW ∧
    has_shape (out_vocab_size m) (hidden_dims m) (np_outer dout st) ∧
    np_matvec (np_transpose (hidden_dims m) (W m)) dout = Some back ∧
    vmul back (grad st) = Some din ∧ length din = hidden_dims m0.
Proof.
  intros Hm Hp Htr Hd0 Ht. pose proof Hp as (_ & Hh & Ho & _).
  apply (wf_traces_params m0 m) in Htr; [|done].
  rewrite Ho in Hd0.
  destruct (trace_row_y m x y s t Htr Ht) as (yt & Hyt & Lyt).
  destruct (delta_out_ok d0 _ yt Hd0 Lyt) as (oh & dout & Hoh & Hsub & Ldo).
  destruct (trace_row_s m x y s t Htr) as (st & Hst & Lst); [lia|].
  destruct (backward_ok _ _ (W m) dout st (wf_W m Hm) Ldo Lst)
    as (back & din & Hback & Hdin & Ldin).
  destruct (madd_outer_ok _ _ (deltaW m) dout st (wf_deltaW m Hm) Ldo Lst)
    as (dW & HdW & SdW).
  exists oh, yt, dout, st, dW, back, din.
  split_and!; try done; [by apply np_outer_has_shape | congruence].
Qed.

Lemma acc_deltas_bptt_step_ok m0 m x d y s (steps t : Z) :
  wf_rnn m → same_params m0 m →
  wf_traces m0 x y s → valid_words m0 x → valid_labels m0 x d →
  steps <= py_len x → 0 <= t < py_len x →
  ∃ m', acc_deltas_bptt_step x d y s steps m t = Some m' ∧
        wf_rnn m' ∧ same_params m0 m'.
Proof.
  intros Hm Hp Htr Hx Hd Hsteps Ht. unfold acc_deltas_bptt_step.
  destruct (label_ok m0 x d t Hd Ht) as (dt & Hdt & Hr).
  destruct (bptt_head_ok m0 m x d y s t dt Hm Hp Htr Hr Ht)
    as (oh & yt & dout & st & dW & back & din & Hoh & Hyt & Hsub & Hst
        & HdW & SdW & _ & Hback & Hdin & Ldin).
  rewrite Hdt, bind_Some, Hoh, bind_Some, Hyt, bind_Some, Hsub, bind_Some.
  rewrite Hst, bind_Some, HdW, bind_Some. simpl.
  rewrite Hback, bind_Some, Hdin, bind_Some.
  assert (Hm1 : wf_rnn (set_deltaW m dW)) by by apply wf_set_deltaW.
  assert (Hp1 : same_params m0 (set_deltaW m dW)).
  { eapply same_params_trans; [done|]. apply same_params_set_deltaW. }
  assert (Hl : Forall (fun t_ => 0 <= t_ <= t + py_len x)
                      (py_range (steps + 1))).
  { apply Forall_forall. intros t_ Hin%elem_of_py_range. lia. }
  destruct (bptt_inner_loop_ok m0 (set_deltaW m dW) x y s t din
              (py_range (steps + 1)) Hm1 Hp1 Htr Hx Ht Hl Ldin)
    as (m' & c' & -> & Hm' & Hp').
  by exists m'.
Qed.

(** A BPTT call on a sentence shorter than [steps] reads before the
    start of [x] and raises. *)
Lemma acc_deltas_bptt_short m x d y s steps :
  1 <= py_len x < steps → acc_deltas_bptt m x d y s steps = None.
Proof.
  intros Hlen. unfold acc_deltas_bptt.
  apply (foldM_raises _ _ _ 0).
  { apply elem_of_reverse, elem_of_py_range. lia. }
  intros m'. unfold acc_deltas_bptt_step.
  assert (Hinner : ∀ st,
    foldM (bptt_inner x s 0) st (py_range (steps + 1)) = None).
  { intros st. apply (foldM_raises _ _ _ (py_len x + 1)).
    - apply elem_of_py_range. lia.
    - intros [m2 c]. unfold bptt_inner.
      by rewrite (py_index_before x) by lia. }
  repeat bind_case; try done; by rewrite Hinner.
Qed.

Lemma acc_deltas_bptt_ok m x d y s steps :
  wf_rnn m → wf_traces m x y s → valid_words m x → valid_labels m x d →
  steps <= py_len x →
  ∃ m', acc_deltas_bptt m x d y s steps = Some m' ∧
        wf_rnn m' ∧ same_params m m'.
Proof.
  intros Hm Htr Hx Hd Hsteps. unfold acc_deltas_bptt.
  apply (foldM_total (fun a => wf_rnn a ∧ same_params m a)).
  - intros a t [Ha Hp] Ht%elem_of_reverse%elem_of_py_range.
    by apply (acc_deltas_bptt_step_ok m a).
  - split; [done|]. by repeat split.
Qed.

(** X3. On well-shaped data with a non-empty sentence, [acc_deltas_bptt]
    returns exactly when [steps <= len(x)]: reads at negative indices down
    to [-len(x)] wrap around silently, the first read below raises.  When
    it returns, the model keeps its dimensions and weights and the
    accumulators keep their shapes. *)
Theorem acc_deltas_bptt_returns_iff m x d y s steps :
  wf_rnn m → wf_traces m x y s → valid_words m x → valid_labels m x d →
  x ≠ [] →
  (is_Some (acc_deltas_bptt m x d y s steps) ↔ steps <= py_len x) ∧
  (∀ m', acc_deltas_bptt m x d y s steps = Some m' →
     wf_rnn m' ∧ same_params m m').
Proof.
  intros Hm Htr Hx Hd Hne.
  assert (Hlen : 1 <= py_len x).
  { destruct x; [done|]. unfold py_len. simpl. lia. }
  split; [split|].
  - intros [m' E]. destruct (decide (steps <= py_len x)); [done|].
    rewrite acc_deltas_bptt_short in E by lia. done.
  - intros Hsteps.
    destruct (acc_deltas_bptt_ok m x d y s steps) as (m' & -> & _); try done.
  - intros m' E. destruct (decide (steps <= py_len x)) as [Hs|Hs].
    + destruct (acc_deltas_bptt_ok m x d y s steps) as (m2 & E2 & Hw & Hp);
        try done.
      by simplify_eq.
    + rewrite acc_deltas_bptt_short in E by lia. done.
Qed.

Lemma acc_deltas_bptt_np_ok m x d y s steps :
  wf_rnn m → wf_traces m x y s → valid_words m x → valid_label m d →
  x ≠ [] →
  ∃ m', acc_deltas_bptt_np m x d y s steps = Some m' ∧
        wf_rnn m' ∧ same_params m m'.
Proof.
  intros Hm Htr Hx Hd Hne. unfold acc_deltas_bptt_np.
  assert (Ht : 0 <= py_len x - 1 < py_len x).
  { destruct x; [done|]. unfold py_len. simpl. lia. }
  set (t := py_len x - 1) in *.
  destruct (valid_label_index m d Hd) as (d0 & Hd0 & Hr).
  destruct (bptt_head_ok m m x d y s t d0 Hm (same_params_refl m) Htr Hr Ht)
    as (oh & yt & dout & st & dW & back & din & Hoh & Hyt & Hsub & Hst
        & _ & _ & SW & Hback & Hdin & Ldin).
  rewrite Hd0, bind_Some, Hoh, bind_Some, Hyt, bind_Some, Hsub, bind_Some.
  rewrite Hst, bind_Some. simpl.
  rewrite Hback, bind_Some, Hdin, bind_Some.
  assert (Hm1 : wf_rnn (set_deltaW m (np_outer dout st)))
    by by apply wf_set_deltaW.
  assert (Hl : Forall (fun t_ => 0 <= t_ <= t + py_len x)
                      (py_range (Z.min (steps + 1) t))).
  { apply Forall_forall. intros t_ Hin%elem_of_py_range. lia. }
  destruct (bptt_inner_loop_ok m (set_deltaW m (np_outer dout st)) x y s t
              din (py_range (Z.min (steps + 1) t)) Hm1
              (same_params_set_deltaW m _) Htr Hx Ht Hl Ldin)
    as (m' & c' & -> & Hm' & Hp').
  by exists m'.
Qed.

(** X4. On well-shaped data with a non-empty sentence and a valid label,
    [acc_deltas_bptt_np] returns for every value of [steps], negative ones
    included; the model keeps its dimensions and weights and the
    accumulators keep their shapes. *)
Theorem acc_deltas_bptt_np_returns m x d y s steps :
  wf_rnn m → wf_traces m x y s → valid_words m x → valid_label m d →
  x ≠ [] →
  ∃ m', acc_deltas_bptt_np m x d y s steps = Some m' ∧
        wf_rnn m' ∧ same_params m m'.
Proof. apply acc_deltas_bptt_np_ok. Qed.
End BackpropReturns.

Section BpttZeroSteps.
Context {F : Type} `{Arith F}.
Implicit Types (m : RNN F) (x d : list Z) (y s : list (list F)).

(** With [steps = 0] a BPTT timestep is a standard timestep, once the
    product with [U] transposed, whose result is not used, goes through. *)
Lemma acc_deltas_bptt_step_zero m0 m x d y s (t : Z) :
  wf_rnn m → same_params m0 m →
  wf_traces m0 x y s → valid_words m0 x → valid_labels m0 x d →
  0 <= t < py_len x →
  acc_deltas_bptt_step x d y s 0 m t = acc_deltas_step x d y s m t.
Proof.
  intros Hm Hp Htr Hx Hd Ht.
  unfold acc_deltas_bptt_step, acc_deltas_step.
  destruct (label_ok m0 x d t Hd Ht) as (dt & Hdt & Hr).
  destruct (bptt_head_ok m0 m x d y s t dt Hm Hp Htr Hr Ht)
    as (oh & yt & dout & st & dW & back & din & Hoh & Hyt & Hsub & Hst
        & HdW & SdW & _ & Hback & Hdin & Ldin).
  rewrite Hdt, !bind_Some, Hoh, !bind_Some, Hyt, !bind_Some.
  rewrite Hsub, !bind_Some, Hst, !bind_Some, HdW, !bind_Some. simpl.
  rewrite Hback, !bind_Some, Hdin, !bind_Some.
  change (t - (Z.of_nat 0 + 0)) with (t - 0). rewrite Z.sub_0_r.
  destruct (py_index x t) as [xt|]; simpl; [|done].
  destruct (make_onehot xt (vocab_size m)) as [ohx|]; simpl; [|done].
  pose proof Hp as (_ & Hh & _).
  destruct (backward_ok _ _ (U m) din st (wf_U m Hm)) as
    (backU & dT & -> & HdT & _); [congruence|..].
  { apply (wf_traces_params m0 m) in Htr; [|done].
    by eapply has_shape_index; [apply Htr|]. }
  simpl. rewrite Hst. simpl. rewrite HdT. simpl.
  repeat bind_case; done.
Qed.

(** X5. On well-shaped data, [acc_deltas_bptt] with [steps = 0] and
    [acc_deltas] leave the same model: with no lookback the two methods
    compute the same accumulators. *)
Theorem acc_deltas_bptt_zero_steps m x d y s :
  wf_rnn m → wf_traces m x y s → valid_words m x → valid_labels m x d →
  acc_deltas_bptt m x d y s 0 = acc_deltas m x d y s.
Proof.
  intros Hm Htr Hx Hd. unfold acc_deltas_bptt, acc_deltas.
  apply (foldM_agree (fun a => wf_rnn a ∧ same_params m a)).
  - intros a t [Ha Hp] Ht%elem_of_reverse%elem_of_py_range.
    by apply (acc_deltas_bptt_step_zero m a).
  - intros a t a' [Ha Hp] Ht%elem_of_reverse%elem_of_py_range E.
    destruct (acc_deltas_step_ok m a x d y s t) as (a2 & E2 & Ha2 & Hp2);
      try done.
    by simplify_eq.
  - split; [done|]. by repeat split.
Qed.

(** X6. With a negative [steps] the inner loop of [acc_deltas_bptt] is
    empty at every timestep: a call that returns has changed [deltaW]
    only, [deltaV] and [deltaU] are as before. *)
Theorem acc_deltas_bptt_negative_steps m x d y s steps m' :
  steps < 0 → acc_deltas_bptt m x d y s steps = Some m' →
  deltaV m' = deltaV m ∧ deltaU m' = deltaU m ∧ same_params m m'.
Proof.
  intros Hsteps. unfold acc_deltas_bptt.
  apply (foldM_invariant
    (fun a => deltaV a = deltaV m ∧ deltaU a = deltaU m ∧ same_params m a)).
  - intros a t a' (HV & HU & Hp). unfold acc_deltas_bptt_step.
    rewrite py_range_nil by lia. simpl.
    repeat bind_case; try done. intros [= <-]. simpl.
    split; [done|]. split; [done|].
    eapply same_params_trans; [done|]. apply same_params_set_deltaW.
  - split; [done|]. split; [done|]. by repeat split.
Qed.
End BpttZeroSteps.

(** * The forward pass as a recurrence *)

Section RecurrenceLemmas.
Context {F : Type} `{Arith F} `{Division F} `{Analytic F}.
Implicit Types (m : RNN F) (x : list Z) (y s : list (list F)).

Lemma rnn_cell_ok m (xt : Z) (sp : list F) :
  wf_rnn m → 0 <= xt < Z.of_nat (vocab_size m) →
  length sp = hidden_dims m →
  ∃ h o, rnn_cell m xt sp = Some (h, o) ∧
         length h = hidden_dims m ∧ length o = out_vocab_size m.
Proof.
  intros Hm Hxt Lsp. unfold rnn_cell.
  destruct (wf_V m Hm) as [LV HV]. destruct (wf_U m Hm) as [LU HU].
  destruct (wf_W m Hm) as [LW HW].
  destruct (make_onehot_ok xt (vocab_size m) Hxt) as (oh & Hoh & Loh).
  destruct (np_matvec_Some (V m) oh) as (a & Ha & La).
  { eapply Forall_impl; [exact HV|]. simpl. congruence. }
  destruct (np_matvec_Some (U m) sp) as (b & Hb & Lb).
  { eapply Forall_impl; [exact HU|]. simpl. congruence. }
  rewrite Hoh, bind_Some, Ha, bind_Some, Hb, bind_Some.
  unfold vadd. rewrite vzip_Some by congruence. rewrite bind_Some.
  assert (Lnet : length (zip_with fadd a b) = hidden_dims m).
  { rewrite length_zip_with. lia. }
  destruct (np_matvec_Some (W m) (sigmoid (zip_with fadd a b)))
    as (p & Hp & Lp).
  { eapply Forall_impl; [exact HW|]. simpl. intros row ->.
    by rewrite sigmoid_length. }
  rewrite Hp, bind_Some. eexists _, _. split; [done|].
  split; [by rewrite sigmoid_length | rewrite softmax_length; congruence].
Qed.

(** The loop body of [predict] is one cell, stored in row [k]. *)
Lemma predict_step_cell m x y s (k : nat) (xt : Z) (sp h o : list F) :
  wf_rnn m → x !! k = Some xt →
  has_shape (length x) (out_vocab_size m) y →
  has_shape (length x + 1) (hidden_dims m) s →
  py_index s (Z.of_nat k - 1) = Some sp →
  rnn_cell m xt sp = Some (h, o) →
  length h = hidden_dims m → length o = out_vocab_size m →
  predict_step m x (y, s) (Z.of_nat k) = Some (<[k := o]> y, <[k := h]> s).
Proof.
  intros Hm Hxt Hy Hs Hsp Hcell Lh Lo.
  pose proof (lookup_lt_Some _ _ _ Hxt) as Hk.
  unfold predict_step. revert Hcell. unfold rnn_cell.
  rewrite (py_index_nonneg x), Nat2Z.id, Hxt, bind_Some by lia.
  destruct (make_onehot xt (vocab_size m)) as [oh|]; simpl; [|done].
  destruct (np_matvec (V m) oh) as [a|]; simpl; [|done].
  rewrite Hsp. simpl.
  destruct (np_matvec (U m) sp) as [b|]; simpl; [|done].
  destruct (vadd a b) as [net_in|]; simpl; [|done].
  destruct (np_matvec (W m) (sigmoid net_in)) as [net_out|] eqn:Eo;
    simpl; [|done].
  intros [= <- <-].
  rewrite (np_store_row_Some s k _ _ _ Hs) by (done || lia).
  rewrite bind_Some, (py_index_nonneg (<[k:=_]> s)), Nat2Z.id by lia.
  rewrite list_lookup_insert_eq by (destruct Hs; lia).
  rewrite bind_Some, Eo, bind_Some.
  by rewrite (np_store_row_Some y k _ _ _ Hy) by (done || lia).
Qed.

Lemma rnn_unroll_length m sp x r :
  rnn_unroll m sp x = Some r → length r = length x.
Proof.
  revert sp r. induction x as [|xt x IH]; intros sp r; simpl.
  - by intros [= <-].
  - destruct (rnn_cell m xt sp) as [c|]; simpl; [|done].
    destruct (rnn_unroll m c.1 x) as [r'|] eqn:E; simpl; [|done].
    intros [= <-]. simpl. f_equal. eauto.
Qed.

(** Cell [k] of an unrolled sentence was fed the word [x[k]] and entry
    [k] of the list of states that starts with [sp]. *)
Lemma rnn_unroll_lookup m sp x r (k : nat) (xt : Z) :
  rnn_unroll m sp x = Some r → x !! k = Some xt →
  ∃ c h, r !! k = Some c ∧ (sp :: r.*1) !! k = Some h ∧
         rnn_cell m xt h = Some c.
Proof.
  revert sp r k. induction x as [|x0 x IH]; intros sp r k; simpl; [done|].
  destruct (rnn_cell m x0 sp) as [c|] eqn:Ec; simpl; [|done].
  destruct (rnn_unroll m c.1 x) as [r'|] eqn:E; simpl; [|done].
  intros [= <-]. destruct k as [|k]; simpl.
  - intros [= <-]. by exists c, sp.
  - intros Hk. destruct (IH c.1 r' k E Hk) as (c' & h & Hc' & Hh & Hcell).
    by exists c', h.
Qed.

Lemma rnn_unroll_ok m sp x :
  wf_rnn m → valid_words m x → length sp = hidden_dims m →
  ∃ r, rnn_unroll m sp x = Some r ∧
       Forall (fun c => length c.1 = hidden_dims m ∧
                        length c.2 = out_vocab_size m) r.
Proof.
  intros Hm Hx. revert sp. induction x as [|xt x IH]; intros sp Lsp; simpl.
  - by exists [].
  - apply Forall_cons in Hx as [Hxt Hx].
    destruct (rnn_cell_ok m xt sp Hm Hxt Lsp) as (h & o & -> & Lh & Lo).
    simpl. destruct (IH Hx h Lh) as (r & -> & Hr). simpl.
    eexists. split; [done|]. by apply Forall_cons.
Qed.

Lemma last_state_cons (sp : list F) c r :
  last_state sp (c :: r) = last_state c.1 r.
Proof.
  unfold last_state. destruct r as [|c' r]; [done|].
  change (last (c :: c' :: r)) with (last (c' :: r)).
  destruct (last (c' :: r)) as [c2|] eqn:E; [done|].
  by apply last_None in E.
Qed.

Lemma rnn_unroll_app m sp x x' :
  rnn_unroll m sp (x ++ x') =
    r ← rnn_unroll m sp x;
    r' ← rnn_unroll m (last_state sp r) x';
    Some (r ++ r').
Proof.
  revert sp. induction x as [|xt x IH]; intros sp; simpl.
  - change (last_state sp []) with sp. by destruct (rnn_unroll m sp x').
  - destruct (rnn_cell m xt sp) as [c|]; simpl; [|done].
    rewrite IH. destruct (rnn_unroll m c.1 x) as [r|]; simpl; [|done].
    rewrite last_state_cons.
    by destruct (rnn_unroll m (last_state c.1 r) x').
Qed.

(** Row [k] of an array that holds the first [k] entries of [l] and is
    still zero below. *)
Lemma fill_step {A} (l : list A) (z : A) (j k : nat) (a : A) :
  l !! k = Some a →
  <[k := a]> (take k l ++ replicate (S j) z) = take (S k) l ++ replicate j z.
Proof.
  intros Hk. pose proof (lookup_lt_Some _ _ _ Hk) as Hlt.
  rewrite insert_app_r_alt by (rewrite length_take; lia).
  rewrite length_take. replace (k - k `min` length l)%nat with 0%nat by lia.
  simpl. rewrite (take_S_r l k a Hk). by rewrite <- app_assoc.
Qed.

Lemma filled_shape (l : list (list F)) (n k c : nat) :
  Forall (fun row => length row = c) l → (k <= length l)%nat →
  has_shape (k + n) c (take k l ++ replicate n (np_zeros c)).
Proof.
  intros Hl Hk. split.
  - rewrite length_app, length_take, length_replicate. lia.
  - apply Forall_app. split; [by apply Forall_take|].
    apply Forall_replicate. unfold np_zeros. by rewrite length_replicate.
Qed.

(** The loop of [predict] after [k] timesteps, on the unrolled cells. *)
Lemma predict_unroll_prefix m x r (k : nat) :
  wf_rnn m →
  rnn_unroll m (np_zeros (hidden_dims m)) x = Some r →
  Forall (fun c => length c.1 = hidden_dims m ∧
                   length c.2 = out_vocab_size m) r →
  (k <= length x)%nat →
  foldM (predict_step m x)
        (np_zeros2 (length x) (out_vocab_size m),
         np_zeros2 (length x + 1) (hidden_dims m))
        (py_range (Z.of_nat k))
    = Some (take k r.*2
              ++ replicate (length x - k) (np_zeros (out_vocab_size m)),
            take k r.*1
              ++ replicate (length x + 1 - k) (np_zeros (hidden_dims m))).
Proof.
  intros Hm Hr Hsh. pose proof (rnn_unroll_length _ _ _ _ Hr) as Lr.
  assert (Hh1 : Forall (fun row => length row = hidden_dims m) r.*1).
  { apply Forall_fmap. eapply Forall_impl; [exact Hsh|]. by intros c []. }
  assert (Hh2 : Forall (fun row => length row = out_vocab_size m) r.*2).
  { apply Forall_fmap. eapply Forall_impl; [exact Hsh|]. by intros c []. }
  induction k as [|k IH]; intros Hk.
  - simpl. rewrite !Nat.sub_0_r. done.
  - unfold py_range. rewrite seqZ_S, Z.add_0_l. fold (py_range (Z.of_nat k)).
    rewrite foldM_app, IH, bind_Some, foldM_singleton by lia.
    destruct (lookup_lt_is_Some_2 x k) as [xt Hxt]; [lia|].
    destruct (rnn_unroll_lookup m _ x r k xt Hr Hxt)
      as ([h o] & sp & Hc & Hsp & Hcell).
    assert (Lh : length h = hidden_dims m ∧ length o = out_vocab_size m).
    { apply (Forall_lookup_1 _ _ _ _ Hsh Hc). }
    destruct Lh as [Lh Lo].
    assert (Hy : has_shape (length x) (out_vocab_size m)
              (take k r.*2 ++ replicate (length x - k)
                                        (np_zeros (out_vocab_size m)))).
    { replace (length x) with (k + (length x - k))%nat at 1 by lia.
      apply filled_shape; [done|]. rewrite length_fmap. lia. }
    assert (Hs : has_shape (length x + 1) (hidden_dims m)
              (take k r.*1 ++ replicate (length x + 1 - k)
                                        (np_zeros (hidden_dims m)))).
    { replace (length x + 1)%nat with (k + (length x + 1 - k))%nat at 1
        by lia.
      apply filled_shape; [done|]. rewrite length_fmap. lia. }
    rewrite (predict_step_cell m x _ _ k xt sp h o Hm Hxt Hy Hs);
      [| |done|done|done].
    + f_equal. f_equal.
      * replace (length x - k)%nat with (S (length x - S k)) by lia.
        apply fill_step. by rewrite list_lookup_fmap, Hc.
      * replace (length x + 1 - k)%nat with (S (length x + 1 - S k)) by lia.
        apply fill_step. by rewrite list_lookup_fmap, Hc.
    + (* the state read as [s[k-1]] *)
      destruct k as [|k]; simpl in Hsp.
      * injection Hsp as <-.
        rewrite py_index_wrap.
        2:{ unfold py_len. rewrite length_app, length_replicate. simpl. lia. }
        simpl. rewrite lookup_replicate_2; [done|].
        unfold py_len. rewrite length_replicate. lia.
      * rewrite py_index_nonneg by lia.
        replace (Z.to_nat (Z.of_nat (S k) - 1)) with k by lia.
        rewrite lookup_app_l by (rewrite length_take, length_fmap; lia).
        rewrite lookup_take_lt by lia. done.
Qed.

Lemma predict_unroll_ok m x :
  wf_rnn m → valid_words m x →
  ∃ r, rnn_unroll m (np_zeros (hidden_dims m)) x = Some r ∧
       predict m x = Some (r.*2, r.*1 ++ [np_zeros (hidden_dims m)]).
Proof.
  intros Hm Hx.
  destruct (rnn_unroll_ok m (np_zeros (hidden_dims m)) x Hm Hx)
    as (r & Hr & Hsh).
  { unfold np_zeros. by rewrite length_replicate. }
  exists r. split; [done|]. unfold predict, py_len.
  rewrite (predict_unroll_prefix m x r (length x) Hm Hr Hsh) by lia.
  pose proof (rnn_unroll_length _ _ _ _ Hr) as Lr.
  rewrite !take_ge by (rewrite length_fmap; lia).
  replace (length x - length x)%nat with 0%nat by lia.
  replace (length x + 1 - length x)%nat with 1%nat by lia.
  simpl. by rewrite app_nil_r.
Qed.

(** X7. [predict] computes the recurrence of the network: on a
    well-shaped model and a sentence of valid words, row [t] of [s] is the
    hidden state of cell [t], fed the word [x[t]] and the state of cell
    [t-1] (the zero vector for [t = 0]), row [t] of [y] is the output of
    cell [t], and the last row of [s] is left at zero. *)
Theorem predict_unrolls m x :
  wf_rnn m → valid_words m x →
  ∃ r, rnn_unroll m (np_zeros (hidden_dims m)) x = Some r ∧
       predict m x = Some (r.*2, r.*1 ++ [np_zeros (hidden_dims m)]).
Proof. apply predict_unroll_ok. Qed.

(** X8. [predict] is causal: on a well-shaped model and valid words, the
    rows of [y] and of [s] for the words of [x] are the same whether
    [predict] is given [x] alone or [x] followed by more words. *)
Theorem predict_prefix_rows m x x' y s y' s' :
  wf_rnn m → valid_words m (x ++ x') →
  predict m x = Some (y, s) → predict m (x ++ x') = Some (y', s') →
  take (length x) y' = y ∧ take (length x) s' = take (length x) s.
Proof.
  intros Hm Hxx Hp Hp'.
  assert (Hx : valid_words m x) by (by apply Forall_app in Hxx as [? _]).
  destruct (predict_unroll_ok m x Hm Hx) as (r & Hr & E).
  destruct (predict_unroll_ok m (x ++ x') Hm Hxx) as (r2 & Hr2 & E2).
  rewrite rnn_unroll_app, Hr, bind_Some in Hr2.
  destruct (rnn_unroll m (last_state _ r) x') as [r'|]; simplify_eq/=.
  pose proof (rnn_unroll_length _ _ _ _ Hr) as Lr.
  rewrite !fmap_app, <- Lr.
  rewrite <- (length_fmap snd r) at 1. rewrite take_app_length.
  split; [done|].
  rewrite <- !app_assoc.
  rewrite <- (length_fmap fst r). by rewrite !take_app_length.
Qed.
End RecurrenceLemmas.

(** * Evaluation on the dev set *)

Section EvaluationLemmas.
Context {F : Type} `{Arith F} `{Division F} `{Analytic F} `{Ordered F}.
Implicit Types (m : RNN F) (x d : list Z) (X D : list (list Z)).
Implicit Types (v w : list F).

(** X9. The empty sentence: [predict] returns no output row and the one
    zero hidden state; [compute_loss] returns the loss it starts from, 0,
    whatever the labels are, while [compute_loss_np] and [compute_acc_np]
    raise, reading [y[-1]] of an array without rows; [acc_deltas] and
    [acc_deltas_bptt] leave the model as it is, while [acc_deltas_np] and
    [acc_deltas_bptt_np], given the [y] of [predict], raise. *)
Theorem empty_sentence m d (y s : list (list F)) steps :
  predict m [] = Some ([], [np_zeros (hidden_dims m)]) ∧
  compute_loss m [] d = Some f0 ∧
  compute_loss_np m [] d = None ∧
  compute_acc_np m [] d = None ∧
  acc_deltas m [] d y s = Some m ∧
  acc_deltas_bptt m [] d y s steps = Some m ∧
  acc_deltas_np m [] d [] s = None ∧
  acc_deltas_bptt_np m [] d [] s steps = None.
Proof.
  split_and!; try done.
  - unfold acc_deltas_np. repeat bind_case; done.
  - unfold acc_deltas_bptt_np. repeat bind_case; done.
Qed.

(** ** [np.argmax] *)

Lemma argmax_from_lt v best_i best i :
  (best_i < i)%nat → (argmax_from best_i best i v < i + length v)%nat.
Proof.
  revert best_i best i. induction v as [|a v IH]; intros bi b i Hi; simpl.
  - lia.
  - destruct (fltb b a).
    + specialize (IH i a (S i)). lia.
    + specialize (IH bi b (S i)). lia.
Qed.

Lemma np_argmax_ok v :
  v ≠ [] → ∃ i, np_argmax v = Some i ∧ 0 <= i < py_len v.
Proof.
  destruct v as [|a v]; [done|]. intros _. eexists. split; [done|].
  pose proof (argmax_from_lt v 0 a 1 ltac:(lia)).
  unfold py_len. simpl. lia.
Qed.

Section Order.
Hypothesis fltb_irrefl : ∀ a : F, fltb a a = false.
Hypothesis fltb_trans :
  ∀ a b c : F, fltb a b = true → fltb b c = true → fltb a c = true.

Lemma fltb_max_step (a b c : F) :
  fltb b a = true → fltb b c = false → fltb a c = false.
Proof.
  intros Hba Hbc. destruct (fltb a c) eqn:E; [|done].
  by rewrite (fltb_trans b a c Hba E) in Hbc.
Qed.

(** The scan keeps an entry that no entry seen so far exceeds. *)
Lemma argmax_from_max pre v best_i best :
  (pre ++ v) !! best_i = Some best →
  (∀ a, a ∈ pre → fltb best a = false) →
  ∃ b, (pre ++ v) !! argmax_from best_i best (length pre) v = Some b ∧
       ∀ a, a ∈ pre ++ v → fltb b a = false.
Proof.
  revert pre best_i best. induction v as [|a v IH]; intros pre bi b Hb Hpre.
  - simpl. exists b. split; [done|]. by rewrite app_nil_r.
  - simpl. rewrite (cons_middle a pre v), app_assoc in Hb |- *.
    replace (S (length pre)) with (length (pre ++ [a]))
      by (rewrite length_app; simpl; lia).
    destruct (fltb b a) eqn:E.
    + apply IH.
      * rewrite lookup_app_l by (rewrite length_app; simpl; lia).
        by rewrite list_lookup_middle.
      * intros c [Hc|Hc%list_elem_of_singleton]%elem_of_app.
        -- eapply fltb_max_step; eauto.
        -- by subst.
    + apply IH; [done|].
      intros c [Hc|Hc%list_elem_of_singleton]%elem_of_app; [by auto|by subst].
Qed.

Lemma np_argmax_max v i :
  np_argmax v = Some i →
  ∃ b, v !! Z.to_nat i = Some b ∧ ∀ a, a ∈ v → fltb b a = false.
Proof.
  destruct v as [|a v]; [done|]. intros [= <-]. rewrite Nat2Z.id.
  destruct (argmax_from_max [a] v 0 a) as (b & Hb & Hmax); [done| |].
  - by intros c ->%list_elem_of_singleton.
  - by exists b.
Qed.
End Order.

(** ** The accuracy *)

Lemma last_row m x (y : list (list F)) :
  has_shape (length x) (out_vocab_size m) y → x ≠ [] →
  ∃ yt, py_index y (py_len x - 1) = Some yt ∧
        y !! (length x - 1)%nat = Some yt ∧
        length yt = out_vocab_size m.
Proof.
  intros [Ly Hy] Hne.
  assert (Hlen : (0 < length x)%nat) by (destruct x; [done|simpl; lia]).
  destruct (lookup_lt_is_Some_2 y (length x - 1)) as [yt Hyt]; [lia|].
  exists yt. unfold py_len. rewrite py_index_nonneg by lia.
  replace (Z.to_nat (Z.of_nat (length x) - 1)) with (length x - 1)%nat by lia.
  split; [done|]. split; [done|].
  by eapply (Forall_lookup_1 _ _ _ _ Hy).
Qed.

(** X10. On a well-shaped model and a non-empty sentence of valid words,
    [compute_acc_np] returns 0 or 1 for every label: a label that is no
    output class is counted as a wrong prediction, it raises nothing (unlike
    in [compute_loss_np]); the result is 1 only for a label below
    [out_vocab_size]. *)
Theorem compute_acc_np_returns m x d (lbl : Z) :
  wf_rnn m → valid_words m x → x ≠ [] → d !! 0%nat = Some lbl →
  ∃ b, compute_acc_np m x d = Some b ∧ (b = 0 ∨ b = 1) ∧
       (b = 1 → 0 <= lbl < Z.of_nat (out_vocab_size m)).
Proof.
  intros Hm Hx Hne Hd.
  destruct (predict_ok m x Hm Hx) as (y & s & Hp & Hy & _).
  destruct (last_row m x y Hy Hne) as (yt & Hyt & _ & Lyt).
  destruct (np_argmax_ok yt) as (i & Hi & Hr).
  { pose proof (wf_out m Hm). destruct yt; [simpl in Lyt; lia|done]. }
  unfold compute_acc_np. rewrite Hp, bind_Some. simpl.
  rewrite Hyt, bind_Some, Hi, bind_Some.
  rewrite (py_index_nonneg d) by lia. change (Z.to_nat 0) with 0%nat.
  rewrite Hd, bind_Some.
  eexists. split; [done|]. unfold py_len in Hr.
  case_bool_decide; [|split; [by left|done]].
  split; [by right|]. intros _. lia.
Qed.

(** X11. When [<] on the numbers is irreflexive and transitive and
    [compute_acc_np] returns 1, the label is a class of greatest
    probability at the last word: no entry of the last row of [y] exceeds
    the entry of the label. *)
Theorem compute_acc_np_one_is_maximum m x d :
  (∀ a : F, fltb a a = false) →
  (∀ a b c : F, fltb a b = true → fltb b c = true → fltb a c = true) →
  compute_acc_np m x d = Some 1 →
  ∃ y s yt (lbl : Z) p,
    predict m x = Some (y, s) ∧ py_index y (py_len x - 1) = Some yt ∧
    py_index d 0 = Some lbl ∧ yt !! Z.to_nat lbl = Some p ∧
    ∀ q, q ∈ yt → fltb p q = false.
Proof.
  intros Hirr Htr. unfold compute_acc_np.
  destruct (predict m x) as [[y s]|] eqn:Ep; simpl; [|done].
  destruct (py_index y (py_len x - 1)) as [yt|] eqn:Ey; simpl; [|done].
  destruct (np_argmax yt) as [i|] eqn:Ei; simpl; [|done].
  destruct (py_index d 0) as [lbl|] eqn:Ed; simpl; [|done].
  case_bool_decide; [|done]. subst lbl. intros _.
  destruct (np_argmax_max Hirr Htr yt i Ei) as (p & Hp & Hmax).
  by exists y, s, yt, i, p.
Qed.

(** ** The mean loss *)

Lemma compute_mean_loss_loop m (l : list (list Z * list Z)) a n :
  foldM (compute_mean_loss_step m) (a, n) l
    = ls ← mapM (fun xd => compute_loss m xd.1 xd.2) l;
      Some (foldl fadd a ls, n + py_len (concat l.*1)).
Proof.
  revert a n. induction l as [|[x d] l IH]; intros a n.
  - simpl. unfold py_len. simpl. by rewrite Z.add_0_r.
  - cbn [foldM mapM fst snd].
    replace (compute_mean_loss_step m (a, n) (x, d))
      with (lo ← compute_loss m x d; Some (fadd a lo, n + py_len x)) by done.
    destruct (compute_loss m x d) as [lo|]; [|done].
    rewrite !bind_Some.
    rewrite IH. destruct (mapM _ l) as [ls|]; [|done].
    rewrite !bind_Some. cbn [foldl fmap list_fmap concat fst].
    unfold py_len. rewrite length_app. do 2 f_equal. lia.
Qed.

Lemma fst_zip_take {A B} (l : list A) (k : list B) :
  (zip l k).*1 = take (length k) l.
Proof.
  revert k. induction l as [|a l IH]; intros [|b k]; simpl; try done.
  by rewrite IH.
Qed.

(** X12. [compute_mean_loss] is the sum of the losses of the paired
    sentences divided by the number of words of the paired sentences of
    [X]: sentences beyond the shorter of [X] and [D] are ignored without an
    error, the lengths of the label lists play no part in the count, and a
    count of 0 raises. *)
Theorem compute_mean_loss_spec m X D :
  compute_mean_loss m X D
    = ls ← mapM (fun xd => compute_loss m xd.1 xd.2) (zip X D);
      let word_count := py_len (concat (take (length D) X)) in
      if bool_decide (word_count = 0) then None
      else Some (fdiv (foldl fadd f0 ls) (of_int word_count)).
Proof.
  unfold compute_mean_loss. rewrite compute_mean_loss_loop.
  destruct (mapM _ _) as [ls|]; simpl; [|done].
  by rewrite fst_zip_take.
Qed.

Lemma compute_loss_ok m x d :
  wf_rnn m → vocab_size m = out_vocab_size m →
  valid_words m x → valid_labels m x d →
  is_Some (compute_loss m x d).
Proof.
  intros Hm Hvo Hx Hd.
  destruct (predict_ok m x Hm Hx) as (y & s & Hp & Hy & Hs).
  assert (Htr : wf_traces m x y s) by done.
  unfold compute_loss. rewrite Hp, bind_Some. simpl.
  destruct (foldM_total (fun _ => True) (compute_loss_step m d y)
              (py_range (py_len x)) f0) as (l & -> & _); [|done|done].
  intros a t _ Ht%elem_of_py_range.
  destruct (label_ok m x d t Hd Ht) as (dt & Hdt & Hr).
  destruct (make_onehot_ok (F:=F) dt (vocab_size m)) as (oh & Hoh & Loh);
    [lia|].
  destruct (trace_row_y m x y s t Htr Ht) as (yt & Hyt & Lyt).
  unfold compute_loss_step.
  rewrite Hdt, bind_Some, Hoh, bind_Some, Hyt, bind_Some.
  unfold np_dot, vmul. rewrite vzip_Some by (rewrite length_map; lia).
  by eexists.
Qed.

Lemma word_count_zero (l : list (list Z * list Z)) :
  py_len (concat l.*1) = 0 ↔
  ¬ Exists (fun xd : list Z * list Z => xd.1 ≠ []) l.
Proof.
  unfold py_len. induction l as [|[x d] l IH].
  - split; [|done]. intros _ Hex. by apply Exists_nil in Hex.
  - rewrite Exists_cons. cbn [fmap list_fmap concat fst].
    rewrite length_app. destruct x as [|a x]; simpl.
    + split.
      * intros E [Hne|Hex]; [done|]. exact (proj1 IH E Hex).
      * intros Hn. apply IH. intros Hex. apply Hn. by right.
    + split; [lia|]. intros Hn. destruct Hn. by left.
Qed.

(** X13. For a model with [vocab_size = out_vocab_size] and a corpus of
    valid words and labels, [compute_mean_loss] returns exactly when one of
    the paired sentences has a word; on an empty corpus, or one of empty
    sentences only, the division by [word_count = 0] raises. *)
Theorem compute_mean_loss_returns_iff m X D :
  wf_rnn m → vocab_size m = out_vocab_size m →
  Forall (fun xd => valid_words m xd.1 ∧ valid_labels m xd.1 xd.2) (zip X D) →
  is_Some (compute_mean_loss m X D) ↔
  Exists (fun xd : list Z * list Z => xd.1 ≠ []) (zip X D).
Proof.
  intros Hm Hvo Hc. unfold compute_mean_loss.
  rewrite compute_mean_loss_loop.
  assert (Hl : is_Some (mapM (fun xd => compute_loss m xd.1 xd.2) (zip X D))).
  { rewrite mapM_is_Some. eapply Forall_impl; [exact Hc|].
    intros [x d] [Hx Hd]. by apply compute_loss_ok. }
  destruct Hl as [ls ->]. rewrite !bind_Some. cbn [snd].
  rewrite Z.add_0_l.
  pose proof (word_count_zero (zip X D)) as Hcount.
  case_bool_decide as Hz.
  - split; [by intros [? ?]|]. intros Hex. by apply Hcount in Hz.
  - split; [|by eexists]. intros _.
    destruct (decide (Exists (fun xd : list Z * list Z => xd.1 ≠ []) (zip X D)))
      as [|Hn]; [done|]. by apply Hcount in Hn.
Qed.

(** X14. On a sentence of one word the two losses agree: [compute_loss]
    and [compute_loss_np] return the same value, or both raise. *)
Theorem compute_loss_one_word m (word : Z) d :
  compute_loss m [word] d = compute_loss_np m [word] d.
Proof.
  unfold compute_loss, compute_loss_np.
  destruct (predict m [word]) as [[y s]|]; [|done]. rewrite !bind_Some.
  change (py_range (py_len [word])) with [0].
  change (py_len [word] - 1) with 0.
  rewrite foldM_singleton. unfold compute_loss_step. cbn [fst].
  destruct (py_index d 0) as [lbl|]; simpl.
  - destruct (make_onehot lbl (vocab_size m)) as [oh|]; simpl.
    + destruct (py_index y 0); simpl; done.
    + destruct (py_index y 0); simpl; done.
  - destruct (py_index y 0); simpl; done.
Qed.
End EvaluationLemmas.

(** * The best epoch *)

Section TrainingBest.
Context {F : Type} `{Arith F} `{Division F} `{Ordered F} {St : Type}.
Variable epoch_body : St -> F -> option St.
Variable dev_loss : St -> option F.
Variable dev_acc : option (St -> option F).
Variable save_params : St -> St.
Variable set_best_params : St -> St.
Variables a0 anneal min_change : F.

Local Abbreviation step :=
  (epoch_step epoch_body dev_loss dev_acc save_params a0 anneal min_change).

(** What one iteration does to the variables that track the best epoch. *)
Lemma epoch_step_best st e r :
  step st e = Some r →
  ∃ loss rate,
    epochs_log r.1 = epochs_log st ++ [(e, rate, loss)] ∧
    (fltb loss (best_loss st) = true →
       best_loss r.1 = loss ∧ best_epoch r.1 = e ∧
       (is_Some dev_acc → is_Some (best_acc r.1))) ∧
    (fltb loss (best_loss st) = false →
       best_loss r.1 = best_loss st ∧ best_epoch r.1 = best_epoch st ∧
       best_acc r.1 = best_acc st).
Proof.
  unfold epoch_step.
  destruct (epoch_body _ _) as [trained|]; simpl; [|done].
  destruct (dev_loss trained) as [loss|]; simpl; [|done].
  destruct (match dev_acc with Some f => Some <$> f trained | None => Some None
            end) as [acc|] eqn:Eacc; simpl; [|done].
  assert (Hacc : is_Some dev_acc → is_Some acc).
  { destruct dev_acc as [f|]; [|by intros [? ?]]. intros _.
    destruct (f trained); simplify_eq/=. by eexists. }
  destruct (2 <? _); intros [= <-]; exists loss; eexists;
    (split; [done|]); simpl; destruct (fltb loss (best_loss st));
    split; try done; intros _; by split_and!.
Qed.

(** The loop and what follows it keep the variables of the last state. *)
Lemma train_driver_loop m epochs r :
  train_driver epoch_body dev_loss dev_acc save_params set_best_params
               m epochs a0 anneal min_change = Some r →
  ∃ initial_loss st,
    dev_loss m = Some initial_loss ∧
    for_break step
      (mkTrain (save_params m) initial_loss (-1) initial_loss 0 None [])
      (py_range epochs) = Some st ∧
    best_loss r = best_loss st ∧ best_epoch r = best_epoch st ∧
    best_acc r = best_acc st ∧ epochs_log r = epochs_log st ∧
    (is_Some dev_acc → is_Some (best_acc st)).
Proof.
  unfold train_driver.
  destruct (dev_loss m) as [initial_loss|]; simpl; [|done].
  destruct (match dev_acc with Some f => Some <$> f m | None => Some None end)
    as [acc0|]; simpl; [|done].
  destruct (for_break _ _ _) as [st|] eqn:Eloop; simpl; [|done].
  destruct (match dev_acc with Some _ => best_acc st | None => Some f0 end)
    eqn:Eacc; simpl; [|done].
  intros [= <-]. exists initial_loss, st. simpl. split_and!; try done.
  revert Eacc. destruct dev_acc as [acc_fn|]; intros Eacc Hs; [|by destruct Hs].
  by eexists.
Qed.

Section BestLoss.
Hypothesis fltb_irrefl : ∀ a : F, fltb a a = false.
Hypothesis fltb_trans :
  ∀ a b c : F, fltb a b = true → fltb b c = true → fltb a c = true.


End BestLoss.
End TrainingBest.

Section TrainingBestTheorems.
Context {F : Type} `{Arith F} `{Division F} `{Ordered F} {St : Type}.


(** X16. [train_np] returns only if the loss after some epoch was below
    the initial loss: [best_acc] is assigned in that branch alone and is
    read after the loop.  In particular [train_np] raises for
    [epochs <= 0], and whenever training never improves on the initial
    model. *)
Theorem train_np_needs_improvement
    (epoch_body : St -> F -> option St) (dev_loss dev_acc : St -> option F)
    (save_params set_best_params : St -> St)
    (m : St) (epochs : Z) (learning_rate anneal min_change : F) :
  (∀ r, train_np epoch_body dev_loss dev_acc save_params set_best_params
                 m epochs learning_rate anneal min_change = Some r →
     ∃ initial_loss e,
       dev_loss m = Some initial_loss ∧ e ∈ epochs_log r ∧
       fltb e.2 initial_loss = true ∧ is_Some (best_acc r)) ∧
  (epochs <= 0 →
     train_np epoch_body dev_loss dev_acc save_params set_best_params
              m epochs learning_rate anneal min_change = None).
Proof.
  assert (Hmain : ∀ r,
    train_np epoch_body dev_loss dev_acc save_params set_best_params
             m epochs learning_rate anneal min_change = Some r →
    ∃ initial_loss e,
      dev_loss m = Some initial_loss ∧ e ∈ epochs_log r ∧
      fltb e.2 initial_loss = true ∧ is_Some (best_acc r)).
  { intros r Hr.
    destruct (train_driver_loop _ _ _ _ _ _ _ _ _ _ r Hr)
      as (init & st & Hinit & Hloop & _ & _ & -> & -> & Hsome).
    specialize (Hsome ltac:(by eexists)).
    assert (Hinv : (best_acc st = None → best_loss st = init) ∧
                   (is_Some (best_acc st) →
                    ∃ e, e ∈ epochs_log st ∧ fltb e.2 init = true)).
    { revert Hloop.
      apply (for_break_invariant (fun st =>
        (best_acc st = None → best_loss st = init) ∧
        (is_Some (best_acc st) →
         ∃ e, e ∈ epochs_log st ∧ fltb e.2 init = true))).
      - intros a e r' [Hnone Hsm] Hstep.
        destruct (epoch_step_best _ _ _ _ _ _ _ a e r' Hstep)
          as (loss & rate & -> & Himp & Hsame).
        destruct (fltb loss (best_loss a)) eqn:E.
        + destruct (Himp eq_refl) as (_ & _ & Hacc).
          specialize (Hacc ltac:(by eexists)). split.
          * intros Hn. rewrite Hn in Hacc. by destruct Hacc.
          * intros _. destruct (best_acc a) as [acc|] eqn:Ea.
            -- destruct Hsm as (e' & He' & Hlt); [by eexists|].
               exists e'. split; [|done]. apply elem_of_app. by left.
            -- exists (e, rate, loss). split.
               ++ apply elem_of_app. right. by apply list_elem_of_singleton.
               ++ simpl. by rewrite <- Hnone.
        + destruct (Hsame eq_refl) as (-> & _ & ->). split; [done|].
          intros Hs. destruct (Hsm Hs) as (e' & He' & Hlt).
          exists e'. split; [|done]. apply elem_of_app. by left.
      - simpl. split; [done|]. by intros [? ?]. }
    destruct Hinv as [_ Hex]. destruct (Hex Hsome) as (e & He & Hlt).
    by exists init, e. }
  split; [exact Hmain|].
  intros Hep.
  destruct (train_np _ _ _ _ _ _ _ _ _ _) as [r|] eqn:Er; [|done].
  destruct (Hmain r eq_refl) as (init & e & Hinit & He & _).
  destruct (train_driver_post _ _ _ _ _ _ _ _ _ _ _ _ Hinit Er) as (Hlen & _).
  replace (Z.to_nat epochs) with 0%nat in Hlen by lia.
  destruct (epochs_log r); [by apply elem_of_nil in He|simpl in Hlen; lia].
Qed.
End TrainingBestTheorems.

(** * The parameter search *)

Lemma foldM_bind_list {A B C} (f : A -> C -> option A)
    (g : A -> B -> option A) (k : B -> list C) l a :
  (∀ a x, foldM f a (k x) = g a x) →
  foldM f a (l ≫= k) = foldM g a l.
Proof.
  intros Hk. revert a. induction l as [|x l IH]; intros a; [done|].
  cbn [mbind list_bind foldM]. rewrite foldM_app, Hk.
  destruct (g a x); simpl; [apply IH|done].
Qed.

Section ParameterSearchLemmas.
Context {F : Type} `{Ordered F} {G : Type}.
Variable run : G -> Z -> F -> Z -> option (F * G).
Implicit Types (st : option F * option (Z * F * Z)) (c : Z * F * Z).
Implicit Types (runs rest pre : list (Z * F * Z * F)).

Local Abbreviation upd :=
  (fun st (cl : Z * F * Z * F) => search_update st cl.1 cl.2).

(** The nested loops visit the triples of [search_order]. *)
Lemma parameter_search_flat g hs ls bs :
  parameter_search run g hs ls bs
    = foldM (fun s c => search_step run s c.1.1 c.1.2 c.2)
            (g, (None, None)) (search_order hs ls bs).
Proof.
  unfold parameter_search, search_order. symmetry.
  apply foldM_bind_list. intros a h.
  apply foldM_bind_list. intros a' l.
  apply foldM_bind_list. intros a'' b.
  by rewrite foldM_singleton.
Qed.

(** The loop is the runs followed by the bookkeeping. *)
Lemma search_fold params g st :
  foldM (fun s c => search_step run s c.1.1 c.1.2 c.2) (g, st) params
    = rs ← search_runs run g params; Some (rs.2, foldl upd st rs.1).
Proof.
  revert g st. induction params as [|c params IH]; intros g st; [done|].
  cbn [foldM search_runs].
  replace (search_step run (g, st) c.1.1 c.1.2 c.2)
    with (r ← run g c.1.1 c.1.2 c.2;
          Some (r.2, search_update st (c.1.1, c.1.2, c.2) r.1)) by done.
  destruct (run g c.1.1 c.1.2 c.2) as [[l g1]|]; [|done].
  rewrite !bind_Some. cbn [fst snd]. rewrite IH.
  destruct (search_runs run g1 params) as [[rs g2]|]; [|done].
  rewrite !bind_Some. cbn [fst snd foldl].
  by destruct c as [[h lr] b].
Qed.

Lemma search_runs_params params g runs g' :
  search_runs run g params = Some (runs, g') → runs.*1 = params.
Proof.
  revert g runs. induction params as [|c params IH]; intros g runs; simpl.
  - by intros [= <- <-].
  - destruct (run g _ _ _) as [[l g1]|]; simpl; [|done].
    destruct (search_runs run g1 params) as [[rs g2]|] eqn:E; simpl; [|done].
    intros [= <- <-]. simpl. f_equal. by eapply IH.
Qed.

(** Once set, [min_loss] and the best parameters stay set. *)
Lemma search_update_set rest l c :
  ∃ l' c', foldl upd (Some l, Some c) rest = (Some l', Some c').
Proof.
  revert l c. induction rest as [|cl rest IH]; intros l c; simpl.
  - by eexists _, _.
  - unfold search_update at 2. simpl. destruct (fltb cl.2 l); apply IH.
Qed.

Lemma search_update_min_set rest l b :
  is_Some (foldl upd (Some l, b) rest).1.
Proof.
  revert l b. induction rest as [|cl rest IH]; intros l b; simpl.
  - by eexists.
  - unfold search_update at 2. simpl. destruct (fltb cl.2 l); apply IH.
Qed.

(** The best parameters stay unset as long as no run is below the first. *)
Lemma search_update_none rest l0 :
  (foldl upd (Some l0, None) rest).2 = None ↔
  Forall (fun cl : Z * F * Z * F => fltb cl.2 l0 = false) rest.
Proof.
  induction rest as [|cl rest IH]; simpl.
  - split; [by constructor|done].
  - unfold search_update at 2. simpl. rewrite Forall_cons.
    destruct (fltb cl.2 l0) eqn:E.
    + destruct (search_update_set rest cl.2 cl.1) as (l' & c' & ->). simpl.
      split; [done|]. by intros [? _].
    + rewrite IH. tauto.
Qed.

(** X17. The parameter search of the script reports [None] for the three
    best parameters exactly when no run after the first has a loss below
    the loss of the first run: the first triple of parameters is never
    reported, even when it is the best.  [min_loss] is set as soon as there
    is one run. *)
Theorem parameter_search_never_reports_first g hs ls bs g' min_loss best :
  parameter_search run g hs ls bs = Some (g', (min_loss, best)) →
  ∃ runs,
    search_runs run g (search_order hs ls bs) = Some (runs, g') ∧
    match runs with
    | [] => min_loss = None ∧ best = None
    | (c0, l0) :: rest =>
        is_Some min_loss ∧
        (best = None ↔ Forall (fun cl => fltb cl.2 l0 = false) rest)
    end.
Proof.
  rewrite parameter_search_flat, search_fold.
  destruct (search_runs run g (search_order hs ls bs)) as [[runs g1]|];
    [|done].
  rewrite bind_Some. cbn [fst snd]. intros [= <- Hst].
  exists runs. split; [done|].
  destruct runs as [|[c0 l0] rest]; simpl in Hst.
  - by simplify_eq.
  - change (search_update (None, None) c0 l0) with (Some l0, @None (Z * F * Z))
      in Hst.
    split.
    + pose proof (search_update_min_set rest l0 None) as Hs.
      by rewrite Hst in Hs.
    + rewrite <- search_update_none. by rewrite Hst.
Qed.

Section Order.
Hypothesis fltb_irrefl : ∀ a : F, fltb a a = false.
Hypothesis fltb_trans :
  ∀ a b c : F, fltb a b = true → fltb b c = true → fltb a c = true.

Lemma search_update_least pre rest l b :
  (∀ cl, cl ∈ pre → fltb cl.2 l = false) →
  (∃ c, (c, l) ∈ pre) →
  (∀ c, b = Some c → (c, l) ∈ pre) →
  ∃ l' b', foldl upd (Some l, b) rest = (Some l', b') ∧
    (∀ cl, cl ∈ pre ++ rest → fltb cl.2 l' = false) ∧
    (∃ c, (c, l') ∈ pre ++ rest) ∧
    (∀ c, b' = Some c → (c, l') ∈ pre ++ rest).
Proof.
  revert pre l b. induction rest as [|[c1 l1] rest IH];
    intros pre l b Hmin Hin Hb.
  - exists l, b. rewrite app_nil_r. by split_and!.
  - cbn [foldl]. rewrite (cons_middle (c1, l1) pre rest), app_assoc.
    unfold search_update at 2. cbn [fst snd].
    destruct (fltb l1 l) eqn:E.
    + apply IH.
      * intros cl [Hcl|Hcl%list_elem_of_singleton]%elem_of_app.
        -- destruct (fltb cl.2 l1) eqn:E1; [|done].
           pose proof (Hmin cl Hcl) as Hm.
           by rewrite (fltb_trans _ _ _ E1 E) in Hm.
        -- subst cl. apply fltb_irrefl.
      * exists c1. apply elem_of_app. right. by apply list_elem_of_singleton.
      * intros c [= <-]. apply elem_of_app. right.
        by apply list_elem_of_singleton.
    + apply IH.
      * intros cl [Hcl|Hcl%list_elem_of_singleton]%elem_of_app; [by auto|].
        by subst cl.
      * destruct Hin as [c Hc]. exists c. apply elem_of_app. by left.
      * intros c Hc. apply elem_of_app. left. by apply Hb.
Qed.

(** X18. When [<] on the losses is irreflexive and transitive, the
    [min_loss] the parameter search ends with is the loss of one of its
    runs and no run has a loss below it; the best parameters, when
    reported, are those of a run with that loss. *)
Theorem parameter_search_min_loss g hs ls bs g' l best :
  parameter_search run g hs ls bs = Some (g', (Some l, best)) →
  ∃ runs,
    search_runs run g (search_order hs ls bs) = Some (runs, g') ∧
    (∀ cl, cl ∈ runs → fltb cl.2 l = false) ∧
    (∃ c, (c, l) ∈ runs) ∧
    (∀ c, best = Some c → (c, l) ∈ runs).
Proof.
  rewrite parameter_search_flat, search_fold.
  destruct (search_runs run g (search_order hs ls bs)) as [[runs g1]|];
    [|done].
  rewrite bind_Some. cbn [fst snd]. intros [= <- Hst].
  exists runs. split; [done|].
  destruct runs as [|[c0 l0] rest]; [done|]. cbn [foldl] in Hst.
  change (search_update (None, None) (c0, l0).1 (c0, l0).2)
    with (Some l0, @None (Z * F * Z)) in Hst.
  destruct (search_update_least [(c0, l0)] rest l0 None)
    as (l' & b' & E & Hmin & Hin & Hb).
  - intros cl ->%list_elem_of_singleton. apply fltb_irrefl.
  - exists c0. by apply list_elem_of_singleton.
  - done.
  - rewrite E in Hst. by simplify_eq.
Qed.
End Order.
End ParameterSearchLemmas.

(** X17 on two runs with the losses 1/2 and 1/10: the second is reported;
    with the losses 1/10 and 1/2 nothing is. *)
Lemma parameter_search_never_reports_first_witness :
  (∃ runs, search_runs demo_run 0%nat (search_order [25] [1 # 2; 1 # 10]%Q [0])
           = Some (runs, 2%nat)) ∧
  parameter_search demo_run 0%nat [25] [1 # 10; 1 # 2]%Q [0]
    = Some (2%nat, (Some (1 # 10)%Q, None)).
Proof.
  split; [|reflexivity].
  assert (E : parameter_search demo_run 0%nat [25] [1 # 2; 1 # 10]%Q [0]
              = Some (2%nat, (Some (1 # 10)%Q, Some (25, (1 # 10)%Q, 0))))
    by reflexivity.
  destruct (parameter_search_never_reports_first demo_run _ _ _ _ _ _ _ E)
    as (runs & Hruns & _).
  by exists runs.
Defined.

Lemma Q_fltb_irrefl (a : Q) : fltb a a = false.
Proof.
  simpl. apply negb_false_iff, Qle_bool_iff. apply Qle_refl.
Qed.

Lemma Q_fltb_trans (a b c : Q) :
  fltb a b = true → fltb b c = true → fltb a c = true.
Proof.
  simpl. rewrite !negb_true_iff. intros Hab Hbc.
  destruct (Qle_bool c a) eqn:E; [|done].
  apply Qle_bool_iff in E.
  assert (Hab' : ¬ (b <= a)%Q) by (rewrite <- Qle_bool_iff; congruence).
  assert (Hbc' : ¬ (c <= b)%Q) by (rewrite <- Qle_bool_iff; congruence).
  apply Qnot_le_lt in Hab', Hbc'.
  exfalso. apply (Qlt_irrefl a).
  eapply Qlt_le_trans; [|exact E]. by eapply Qlt_trans.
Qed.

Lemma parameter_search_min_loss_witness :
  ∃ runs,
    search_runs demo_run 0%nat (search_order [25] [1 # 2; 1 # 10]%Q [0])
      = Some (runs, 2%nat) ∧
    (25, (1 # 10)%Q, 0, (1 # 10)%Q) ∈ runs.
Proof.
  assert (E : parameter_search demo_run 0%nat [25] [1 # 2; 1 # 10]%Q [0]
              = Some (2%nat, (Some (1 # 10)%Q, Some (25, (1 # 10)%Q, 0))))
    by reflexivity.
  destruct (parameter_search_min_loss demo_run Q_fltb_irrefl Q_fltb_trans
              _ _ _ _ _ _ _ E)
    as (runs & Hruns & _ & _ & Hbest).
  exists runs. split; [done|]. by apply Hbest.
Defined.

(** * A training instance: forward pass, then backward pass *)

Section TrainInstance.
Context {F : Type} `{Arith F} `{Division F} `{Analytic F}.
Implicit Types (m : RNN F) (x d : list Z).

(** X19. The instance step of [train] on a well-shaped model, a
    non-empty sentence of valid words and valid labels: the traces that
    [predict] returns fit the backward pass, and the step returns exactly
    when [back_steps <= len(x)]; a sentence shorter than [back_steps]
    makes [train] raise.  When it returns, the weights are untouched. *)
Theorem train_instance_returns_iff m x d back_steps :
  wf_rnn m → valid_words m x → valid_labels m x d → x ≠ [] →
  (is_Some (train_instance m x d back_steps) ↔ back_steps <= py_len x) ∧
  (∀ m', train_instance m x d back_steps = Some m' →
     wf_rnn m' ∧ same_params m m').
Proof.
  intros Hm Hx Hd Hne.
  destruct (predict_ok m x Hm Hx) as (y & s & Hp & Hy & Hs).
  assert (Htr : wf_traces m x y s) by done.
  assert (Hlen : 1 <= py_len x).
  { destruct x; [done|]. unfold py_len. simpl. lia. }
  unfold train_instance. rewrite Hp, bind_Some. cbn [fst snd].
  case_bool_decide as Hb.
  - destruct (acc_deltas_ok m x d y s) as (m1 & E & Hw & Hsp); try done.
    rewrite E. split.
    + split; [intros _; lia|by eexists].
    + by intros m' [= <-].
  - destruct (decide (back_steps <= py_len x)) as [Hle|Hgt].
    + destruct (acc_deltas_bptt_ok m x d y s back_steps)
        as (m1 & E & Hw & Hsp); try done.
      rewrite E. split.
      * split; [done|by eexists].
      * by intros m' [= <-].
    + rewrite acc_deltas_bptt_short by lia. split; [|done].
      split; [by intros [? ?]|done].
Qed.

(** X20. The instance step of [train_np] on a well-shaped model, a
    non-empty sentence of valid words and a valid label returns for every
    value of [back_steps], with the weights untouched. *)
Theorem train_np_instance_returns m x d back_steps :
  wf_rnn m → valid_words m x → valid_label m d → x ≠ [] →
  ∃ m', train_np_instance m x d back_steps = Some m' ∧
        wf_rnn m' ∧ same_params m m'.
Proof.
  intros Hm Hx Hd Hne.
  destruct (predict_ok m x Hm Hx) as (y & s & Hp & Hy & Hs).
  assert (Htr : wf_traces m x y s) by done.
  unfold train_np_instance. rewrite Hp, bind_Some. cbn [fst snd].
  case_bool_decide.
  - by apply acc_deltas_np_ok.
  - by apply acc_deltas_bptt_np_ok.
Qed.
End TrainInstance.

(** * Lookback 0 in the single-label BPTT method *)

Section BpttNpZeroSteps.
Context {F : Type} `{Arith F}.
Implicit Types (m : RNN F) (x d : list Z) (y s : list (list F)).
Hypothesis fadd_zero : ∀ a : F, fadd f0 a = a.

Lemma vadd_zeros (b : list F) :
  vadd (np_zeros (length b)) b = Some b.
Proof.
  unfold vadd, np_zeros. rewrite vzip_Some by by rewrite length_replicate.
  f_equal. induction b as [|a b IH]; simpl; [done|].
  by rewrite fadd_zero, IH.
Qed.

Lemma madd_zeros (r c : nat) (B : list (list F)) :
  has_shape r c B → madd (np_zeros2 r c) B = Some B.
Proof.
  intros [LB HB]. unfold madd, np_zeros2.
  rewrite decide_True by by rewrite length_replicate.
  subst r. induction HB as [|b B Lb HB IH]; [done|].
  cbn [length replicate zip zip_with mapM fst snd].
  rewrite <- Lb at 1. rewrite vadd_zeros, bind_Some.
  fold (zip (replicate (length B) (np_zeros c)) B).
  by rewrite IH.
Qed.

(** X21. From accumulators [deltaV] and [deltaU] at zero, on well-shaped
    data with a sentence of at least two words and with [0 + a = a] on the
    numbers, [acc_deltas_bptt_np] with [steps = 0] leaves the model that
    [acc_deltas_np] leaves.  (On a sentence of one word it does not: the
    loop bound [min(steps+1, t)] is 0 there.) *)
Theorem acc_deltas_bptt_np_zero_steps m x d y s :
  wf_rnn m → wf_traces m x y s → valid_words m x → valid_label m d →
  2 <= py_len x →
  deltaV m = np_zeros2 (hidden_dims m) (vocab_size m) →
  deltaU m = np_zeros2 (hidden_dims m) (hidden_dims m) →
  acc_deltas_bptt_np m x d y s 0 = acc_deltas_np m x d y s.
Proof.
  intros Hm Htr Hx Hd Hlen HV HU.
  unfold acc_deltas_bptt_np, acc_deltas_np.
  set (t := py_len x - 1) in *.
  assert (Ht : 1 <= t < py_len x) by (unfold t; lia).
  destruct (valid_label_index m d Hd) as (lbl & Hlbl & Hr).
  destruct (bptt_head_ok m m x d y s t lbl Hm (same_params_refl m) Htr Hr)
    as (oh & yt & dout & st & dW & back & din & Hoh & Hyt & Hsub & Hst
        & _ & _ & SW & Hback & Hdin & Ldin); [lia|].
  rewrite Hlbl, !bind_Some, Hoh, !bind_Some, Hyt, !bind_Some.
  rewrite Hsub, !bind_Some, Hst, !bind_Some. cbv zeta.
  change (W (set_deltaW m (np_outer dout st))) with (W m).
  change (hidden_dims (set_deltaW m (np_outer dout st))) with (hidden_dims m).
  rewrite Hback, !bind_Some, Hdin, !bind_Some.
  replace (py_range (Z.min (0 + 1) t)) with [0]
    by (by replace (Z.min (0 + 1) t) with 1 by lia).
  rewrite foldM_singleton, bptt_inner_split.
  unfold bptt_inner_contrib. rewrite Z.sub_0_r.
  set (m1 := set_deltaW m (np_outer dout st)).
  destruct (word_ok m x t Hx) as (xt & Hxt & Hxr); [lia|].
  destruct (make_onehot_ok (F:=F) xt (vocab_size m) Hxr) as (ohx & Hohx & Lohx).
  destruct (trace_row_s m x y s t Htr) as (st' & Hst' & Lst); [lia|].
  rewrite Hst in Hst'. injection Hst' as <-.
  destruct (trace_row_s m x y s (t - 1) Htr) as (sp & Hsp & Lsp); [lia|].
  destruct (backward_ok _ _ (U m) din st (wf_U m Hm) Ldin Lst)
    as (backU & dT & HbackU & HdT & LdT).
  change (vocab_size m1) with (vocab_size m).
  change (hidden_dims m1) with (hidden_dims m).
  change (U m1) with (U m).
  rewrite Hxt, !bind_Some, Hohx, !bind_Some, HbackU, !bind_Some.
  rewrite Hst, !bind_Some, HdT, !bind_Some.
  rewrite bool_decide_eq_true_2 by done.
  rewrite Hsp, !bind_Some. cbn [fst snd]. unfold add_VU. cbn [fst snd].
  change (deltaV m1) with (deltaV m). change (deltaU m1) with (deltaU m).
  rewrite HV, HU.
  rewrite (madd_zeros (hidden_dims m) (vocab_size m) (np_outer din ohx))
    by (by apply np_outer_has_shape).
  rewrite (madd_zeros (hidden_dims m) (hidden_dims m) (np_outer din sp))
    by (by apply np_outer_has_shape).
  done.
Qed.
End BpttNpZeroSteps.

(** * The further properties on the small models *)

Lemma demo_traces_wf : wf_traces demo_rnn [0; 1] demo_y demo_s.
Proof. split; (split; [reflexivity | by repeat constructor]). Qed.

Lemma demo_words : valid_words demo_rnn [0; 1].
Proof. repeat constructor; simpl; lia. Qed.

Lemma demo_labels : valid_labels demo_rnn [0; 1] [1; 0].
Proof. split; [simpl; lia|]. repeat constructor; simpl; lia. Qed.

Lemma demo_label : valid_label demo_rnn [1].
Proof. exists 1. split; [done|]. simpl. lia. Qed.

Lemma demo_words_R : valid_words demo_rnn_R [0; 1].
Proof. repeat constructor; simpl; lia. Qed.

Lemma demo_labels_R : valid_labels demo_rnn_R [0; 1] [1; 0].
Proof. split; [simpl; lia|]. repeat constructor; simpl; lia. Qed.

Lemma R_fltb_irrefl (a : R) : fltb a a = false.
Proof.
  simpl. destruct (Rlt_dec a a) as [Hlt|]; [|done].
  by apply Rlt_irrefl in Hlt.
Qed.

Lemma R_fltb_trans (a b c : R) :
  fltb a b = true → fltb b c = true → fltb a c = true.
Proof.
  simpl. destruct (Rlt_dec a b); [|done]. destruct (Rlt_dec b c); [|done].
  intros _ _. destruct (Rlt_dec a c) as [|Hn]; [done|].
  destruct Hn. by eapply Rlt_trans.
Qed.

(** X1 at a sentence of two words. *)
Lemma acc_deltas_returns_witness :
  ∃ m', acc_deltas demo_rnn [0; 1] [1; 0] demo_y demo_s = Some m' ∧
        same_params demo_rnn m'.
Proof.
  destruct (acc_deltas_returns demo_rnn [0; 1] [1; 0] demo_y demo_s
              demo_rnn_wf demo_traces_wf demo_words demo_labels)
    as (m' & E & _ & Hp).
  by exists m'.
Defined.

(** X2 at a sentence of two words. *)
Lemma acc_deltas_np_returns_witness :
  ∃ m', acc_deltas_np demo_rnn [0; 1] [1] demo_y demo_s = Some m' ∧
        same_params demo_rnn m'.
Proof.
  destruct (acc_deltas_np_returns demo_rnn [0; 1] [1] demo_y demo_s
              demo_rnn_wf demo_traces_wf demo_words demo_label)
    as (m' & E & _ & Hp); [done|].
  by exists m'.
Defined.

(** X3 at a sentence of two words: [steps = 2] returns, [steps = 3]
    raises. *)
Lemma acc_deltas_bptt_returns_iff_witness :
  is_Some (acc_deltas_bptt demo_rnn [0; 1] [1; 0] demo_y demo_s 2) ∧
  acc_deltas_bptt demo_rnn [0; 1] [1; 0] demo_y demo_s 3 = None.
Proof.
  split.
  - apply (acc_deltas_bptt_returns_iff demo_rnn [0; 1] [1; 0] demo_y demo_s 2
             demo_rnn_wf demo_traces_wf demo_words demo_labels); [done|].
    unfold py_len. simpl. lia.
  - apply eq_None_not_Some. intros Hs.
    apply (acc_deltas_bptt_returns_iff demo_rnn [0; 1] [1; 0] demo_y demo_s 3
             demo_rnn_wf demo_traces_wf demo_words demo_labels) in Hs;
      [|done].
    unfold py_len in Hs. simpl in Hs. lia.
Defined.

(** X4 at a sentence of two words with a negative [steps]. *)
Lemma acc_deltas_bptt_np_returns_witness :
  ∃ m', acc_deltas_bptt_np demo_rnn [0; 1] [1] demo_y demo_s (-5) = Some m' ∧
        same_params demo_rnn m'.
Proof.
  destruct (acc_deltas_bptt_np_returns demo_rnn [0; 1] [1] demo_y demo_s (-5)
              demo_rnn_wf demo_traces_wf demo_words demo_label)
    as (m' & E & _ & Hp); [done|].
  by exists m'.
Defined.

(** X5 at a sentence of two words. *)
Lemma acc_deltas_bptt_zero_steps_witness :
  acc_deltas_bptt demo_rnn [0; 1] [1; 0] demo_y demo_s 0
    = acc_deltas demo_rnn [0; 1] [1; 0] demo_y demo_s.
Proof.
  exact (acc_deltas_bptt_zero_steps demo_rnn [0; 1] [1; 0] demo_y demo_s
           demo_rnn_wf demo_traces_wf demo_words demo_labels).
Defined.

(** X6 at a sentence of two words with [steps = -1]. *)
Lemma acc_deltas_bptt_negative_steps_witness :
  ∃ m', acc_deltas_bptt demo_rnn [0; 1] [1; 0] demo_y demo_s (-1) = Some m' ∧
        deltaV m' = deltaV demo_rnn ∧ deltaU m' = deltaU demo_rnn.
Proof.
  destruct (acc_deltas_bptt demo_rnn [0; 1] [1; 0] demo_y demo_s (-1))
    as [m'|] eqn:E; [|by vm_compute in E].
  destruct (acc_deltas_bptt_negative_steps
              demo_rnn [0; 1] [1; 0] demo_y demo_s (-1) m')
    as (HV & HU & _); [lia|done|].
  by exists m'.
Defined.

(** X7 at the sentence [[0; 1]]. *)
Lemma predict_unrolls_witness :
  ∃ r, rnn_unroll demo_rnn_R [0%R] [0; 1] = Some r ∧
       predict demo_rnn_R [0; 1] = Some (r.*2, r.*1 ++ [[0%R]]).
Proof.
  exact (predict_unrolls demo_rnn_R [0; 1] demo_rnn_R_wf demo_words_R).
Defined.

(** X8 at the sentence [[0]] followed by the word 1. *)
Lemma predict_prefix_rows_witness :
  ∃ y s y' s',
    predict demo_rnn_R [0] = Some (y, s) ∧
    predict demo_rnn_R [0; 1] = Some (y', s') ∧
    take 1 y' = y ∧ take 1 s' = take 1 s.
Proof.
  assert (Hx : valid_words demo_rnn_R [0])
    by (repeat constructor; simpl; lia).
  destruct (predict_ok demo_rnn_R [0] demo_rnn_R_wf Hx)
    as (y & s & Hp & _).
  destruct (predict_ok demo_rnn_R [0; 1] demo_rnn_R_wf demo_words_R)
    as (y' & s' & Hp' & _).
  exists y, s, y', s'. split; [done|]. split; [done|].
  exact (predict_prefix_rows demo_rnn_R [0] [1] y s y' s'
           demo_rnn_R_wf demo_words_R Hp Hp').
Defined.

(** X10 at the sentence [[0; 1]] with the label 5, which is no output
    class: the result is 0. *)
Lemma compute_acc_np_returns_witness :
  compute_acc_np demo_rnn_R [0; 1] [5] = Some 0.
Proof.
  destruct (compute_acc_np_returns demo_rnn_R [0; 1] [5] 5
              demo_rnn_R_wf demo_words_R) as (b & -> & [-> | ->] & Hb);
    [done|done|done|].
  specialize (Hb eq_refl). simpl in Hb. lia.
Defined.

Lemma demo_flat_acc : compute_acc_np demo_flat_R [0] [0] = Some 1.
Proof.
  lazy -[fltb exp Rplus Rmult Rdiv Rminus Ropp Rinv IZR].
  by rewrite R_fltb_irrefl.
Qed.

(** X11 on the model whose classes are equally probable, at the label 0. *)
Lemma compute_acc_np_one_is_maximum_witness :
  ∃ y s yt p,
    predict demo_flat_R [0] = Some (y, s) ∧ py_index y 0 = Some yt ∧
    yt !! 0%nat = Some p ∧ ∀ q, q ∈ yt → fltb p q = false.
Proof.
  destruct (compute_acc_np_one_is_maximum demo_flat_R [0] [0]
              R_fltb_irrefl R_fltb_trans demo_flat_acc)
    as (y & s & yt & lbl & p & Hp & Hy & Hd & Hl & Hmax).
  injection Hd as <-. by exists y, s, yt, p.
Defined.

(** X13 on a corpus of one sentence of two words and one empty
    sentence. *)
Lemma compute_mean_loss_returns_iff_witness :
  is_Some (compute_mean_loss demo_rnn_R [[0; 1]; []] [[1; 0]; []]).
Proof.
  apply (compute_mean_loss_returns_iff demo_rnn_R [[0; 1]; []] [[1; 0]; []]
           demo_rnn_R_wf eq_refl).
  - repeat constructor; simpl; lia.
  - by left.
Defined.


(** X16 on the small training run: [train_np] returns with 10 epochs,
    the first of which improves the loss, and raises with none. *)
Lemma train_np_needs_improvement_witness :
  is_Some (train_np demo_epoch_body demo_dev_loss demo_dev_acc
             demo_save_params demo_set_best_params
             0%nat 10 (1 # 2)%Q 5%Q (1 # 10000)%Q) ∧
  train_np demo_epoch_body demo_dev_loss demo_dev_acc
           demo_save_params demo_set_best_params
           0%nat 0 (1 # 2)%Q 5%Q (1 # 10000)%Q = None.
Proof.
  split; [vm_compute; by eexists|].
  apply (train_np_needs_improvement demo_epoch_body demo_dev_loss demo_dev_acc
           demo_save_params demo_set_best_params). lia.
Defined.

(** X19 at a sentence of two words: [back_steps = 2] returns,
    [back_steps = 3] raises. *)
Lemma train_instance_returns_iff_witness :
  is_Some (train_instance demo_rnn_R [0; 1] [1; 0] 2) ∧
  train_instance demo_rnn_R [0; 1] [1; 0] 3 = None.
Proof.
  split.
  - apply (train_instance_returns_iff demo_rnn_R [0; 1] [1; 0] 2
             demo_rnn_R_wf demo_words_R demo_labels_R); [done|].
    unfold py_len. simpl. lia.
  - apply eq_None_not_Some. intros Hs.
    apply (train_instance_returns_iff demo_rnn_R [0; 1] [1; 0] 3
             demo_rnn_R_wf demo_words_R demo_labels_R) in Hs; [|done].
    unfold py_len in Hs. simpl in Hs. lia.
Defined.

(** X20 at a sentence of two words with [back_steps = 7]. *)
Lemma train_np_instance_returns_witness :
  ∃ m', train_np_instance demo_rnn_R [0; 1] [1] 7 = Some m' ∧
        same_params demo_rnn_R m'.
Proof.
  destruct (train_np_instance_returns demo_rnn_R [0; 1] [1] 7
              demo_rnn_R_wf demo_words_R) as (m' & E & _ & Hp).
  - exists 1. split; [done|]. simpl. lia.
  - done.
  - by exists m'.
Defined.

Lemma demo_traces_R_wf : wf_traces demo_rnn_R [0; 1] demo_y_R demo_s_R.
Proof. split; (split; [reflexivity | by repeat constructor]). Qed.

Lemma R_fadd_zero (a : R) : fadd f0 a = a.
Proof. simpl. lra. Qed.

(** X21 at a sentence of two words, over the reals. *)
Lemma acc_deltas_bptt_np_zero_steps_witness :
  acc_deltas_bptt_np demo_rnn_R [0; 1] [1] demo_y_R demo_s_R 0
    = acc_deltas_np demo_rnn_R [0; 1] [1] demo_y_R demo_s_R.
Proof.
  apply (acc_deltas_bptt_np_zero_steps R_fadd_zero demo_rnn_R [0; 1] [1]
           demo_y_R demo_s_R demo_rnn_R_wf demo_traces_R_wf).
  - repeat constructor; simpl; lia.
  - exists 1. split; [done|]. simpl. lia.
  - unfold py_len. simpl. lia.
  - reflexivity.
  - reflexivity.
Defined.
